(** * The loadz0r chunk transformer of v8env (src/v8env/src/compiler/loader.ts)

    A shallow embedding of the Rollup plugin returned by [loader]: the
    merge of its options, its two closure variables ([inputs],
    [resolvedInputs]), the [options] hook and the [transformChunk] hook,
    together with the part of the JavaScript
    runtime the hooks touch (strings, [Object.values], promises) and the
    part of the magic-string package they call.

    Conventions.  A JavaScript string is a [string]: one [ascii] per code
    unit, so [String.length] plays the role of [.length].  Exceptions are
    explicit ([Completion]); the promise store, the host's clock and the
    log of [this.resolveId] calls are threaded through a [World]. *)

From Stdlib Require Import String Ascii List Arith Lia Bool NArith.
From Stdlib Require Import DecimalString Permutation.
Import ListNotations.
Open Scope string_scope.

(* ------------------------------------------------------------------ *)
(** ** Completions and exceptions *)

Inductive Exception :=
| Error (message : string)      (* new Error(message) *)
| TypeError.                    (* raised by the runtime itself *)

Inductive Completion (A : Type) :=
| Normal (a : A)
| Throw (e : Exception).
Arguments Normal {A} a.
Arguments Throw {A} e.

(* ------------------------------------------------------------------ *)
(** ** Strings *)

(** The double quote character, spelled by its code. *)
Definition dquote : string := String (ascii_of_nat 34) EmptyString.

(** [code.startsWith(prefix)] *)
Definition startsWith (s pre : string) : bool := String.prefix pre s.

(** [s.slice(n)] for [0 <= n]. *)
Fixpoint slice (n : nat) (s : string) : string :=
  match n, s with
  | O, _ => s
  | S _, EmptyString => EmptyString
  | S n', String _ s' => slice n' s'
  end.

(* ------------------------------------------------------------------ *)
(** ** magic-string (imported at loader.ts:18)

    Only what [transformChunk] calls: the constructor, [remove],
    [prepend], [toString]; [generateMap] is kept symbolic.  An instance
    keeps the original text, the text prepended so far and the ranges
    taken out of the original. *)

Module MagicString.

Record t := mk {
  original : string;
  intro : string;
  removed : list (nat * nat);
  outro : string
}.

(** [new MagicString(code)] *)
Definition new (code : string) : t :=
  {| original := code; intro := ""; removed := []; outro := "" |}.

(** [remove(start, end)] with non-negative arguments: an empty range is
    a no-op, a range that ends beyond the original or runs backwards is
    refused. *)
Definition remove (start end_ : nat) (m : t) : Completion t :=
  if (start =? end_)%nat then Normal m
  else if (String.length (original m) <? end_)%nat
    then Throw (Error "Character is out of bounds")
  else if (end_ <? start)%nat
    then Throw (Error "end must be greater than start")
  else Normal {| original := original m; intro := intro m;
                 removed := (start, end_) :: removed m; outro := outro m |}.

(** [prepend(content)]: [this.intro = content + this.intro] *)
Definition prepend (content : string) (m : t) : t :=
  {| original := original m; intro := content ++ intro m;
     removed := removed m; outro := outro m |}.

Definition is_removed (ranges : list (nat * nat)) (i : nat) : bool :=
  existsb (fun r => (fst r <=? i)%nat && (i <? snd r)%nat) ranges.

(** The characters of the original, from offset [i] on, that no range
    covers. *)
Fixpoint surviving (ranges : list (nat * nat)) (i : nat) (s : string) : string :=
  match s with
  | EmptyString => EmptyString
  | String c s' =>
      if is_removed ranges i then surviving ranges (S i) s'
      else String c (surviving ranges (S i) s')
  end.

(** [toString()] *)
Definition toString (m : t) : string :=
  intro m ++ surviving (removed m) 0 (original m) ++ outro m.

End MagicString.

(** The object [generateMap(options)] returns, kept symbolic: the edited
    text it describes and the [hires] option. *)
Record SourceMap := mkSourceMap {
  map_source : MagicString.t;
  map_hires : bool
}.

Definition generateMap (hires : bool) (m : MagicString.t) : SourceMap :=
  {| map_source := m; map_hires := hires |}.

(* ------------------------------------------------------------------ *)
(** ** The values of the build's [input] option *)

Inductive InputValue :=
| IUndefined
| IString (s : string)
| IArray (xs : list string)
| IObject (props : list (string * string)).
   (* own enumerable properties, in the order they were created *)

Definition typeof (v : InputValue) : string :=
  match v with
  | IUndefined => "undefined"
  | IString _ => "string"
  | IArray _ | IObject _ => "object"
  end.

(** A property key is an array index when it is the canonical decimal
    spelling of an integer below 2^32 - 1. *)
Definition array_index (k : string) : option N :=
  match NilZero.uint_of_string k with
  | Some d =>
      let n := N.of_uint d in
      if ((NilEmpty.string_of_uint (N.to_uint n) =? k)
          && (n <? 4294967295)%N)%bool
      then Some n else None
  | None => None
  end.

Fixpoint insert_index (k : N) (v : string) (l : list (N * string))
  : list (N * string) :=
  match l with
  | [] => [(k, v)]
  | (k', v') :: r =>
      if (k <? k')%N then (k, v) :: l else (k', v') :: insert_index k v r
  end.

(** The values stored under array-index keys, by ascending index. *)
Fixpoint index_props (props : list (string * string)) : list (N * string) :=
  match props with
  | [] => []
  | (k, v) :: r =>
      match array_index k with
      | Some n => insert_index n v (index_props r)
      | None => index_props r
      end
  end.

(** The values stored under the other keys, in creation order. *)
Fixpoint named_props (props : list (string * string)) : list string :=
  match props with
  | [] => []
  | (k, v) :: r =>
      match array_index k with
      | Some _ => named_props r
      | None => v :: named_props r
      end
  end.

Fixpoint chars (s : string) : list string :=
  match s with
  | EmptyString => []
  | String c s' => String c EmptyString :: chars s'
  end.

(** [Object.values(v)]: own enumerable property values in property
    order (array indices ascending, then the other keys as created). *)
Definition Object_values (v : InputValue) : Completion (list string) :=
  match v with
  | IUndefined => Throw TypeError
  | IString s => Normal (chars s)
  | IArray xs => Normal xs
  | IObject props => Normal (map snd (index_props props) ++ named_props props)%list
  end.

(* ------------------------------------------------------------------ *)
(** ** Promises

    The store is a list of cells; a promise is its position in the list
    and a new promise goes to the end, so a cell only refers to earlier
    ones.  A promise handed out by the host ([this.resolveId]) is settled
    by the host, at a time read off the host's clock; the state of a
    promise made by [Promise.all] or [then] follows from the cells it
    refers to. *)

Definition PromiseId := nat.

#[warnings="-register-all"]
Inductive Payload :=
| PModuleId (id : option string)   (* what resolveId delivers: an id, or null *)
| PArray (items : list Payload)    (* what Promise.all delivers *)
| PChunk (code : string) (map : SourceMap).   (* the object {code, map} *)

Inductive Settlement :=
| Fulfilled (v : Payload)
| Rejected (reason : Exception).

Inductive Cell :=
| HostPromise (specifier : string) (settled : option (nat * Settlement))
| AllPromise (members : list PromiseId)
| ThenPromise (parent : PromiseId) (onFulfilled : Payload -> Payload).

Inductive Status :=
| Pending
| Settled (time : nat) (s : Settlement).

(** The earliest rejection among [ss], if any. *)
Fixpoint first_rejection (ss : list Status) : option (nat * Exception) :=
  match ss with
  | [] => None
  | Settled t (Rejected e) :: r =>
      match first_rejection r with
      | Some (t', e') => if (t' <? t)%nat then Some (t', e') else Some (t, e)
      | None => Some (t, e)
      end
  | _ :: r => first_rejection r
  end.

(** The values and the latest time of [ss] when all are fulfilled. *)
Fixpoint all_fulfilled (ss : list Status) : option (nat * list Payload) :=
  match ss with
  | [] => Some (0, [])
  | Settled t (Fulfilled v) :: r =>
      match all_fulfilled r with
      | Some (t', vs) => Some (Nat.max t t', v :: vs)
      | None => None
      end
  | _ :: r => None
  end.

(** [Promise.all]: rejected as soon as one member is, fulfilled with the
    array of values once every member is. *)
Definition all_status (ss : list Status) : Status :=
  match first_rejection ss with
  | Some (t, e) => Settled t (Rejected e)
  | None =>
      match all_fulfilled ss with
      | Some (t, vs) => Settled t (Fulfilled (PArray vs))
      | None => Pending
      end
  end.

(** The state of one cell, given the states of the cells before it.
    [then(f)] with no rejection handler passes a rejection on. *)
Definition status_cell (prev : list Status) (c : Cell) : Status :=
  match c with
  | HostPromise _ None => Pending
  | HostPromise _ (Some (t, s)) => Settled t s
  | AllPromise members =>
      all_status (map (fun p => nth p prev Pending) members)
  | ThenPromise parent f =>
      match nth parent prev Pending with
      | Pending => Pending
      | Settled t (Fulfilled v) => Settled t (Fulfilled (f v))
      | Settled t (Rejected e) => Settled t (Rejected e)
      end
  end.

Definition statuses (h : list Cell) : list Status :=
  fold_left (fun prev c => (prev ++ [status_cell prev c])%list) h [].

(* ------------------------------------------------------------------ *)
(** ** The plugin instance and its host *)

Record World := mkWorld {
  inputs : InputValue;                 (* let inputs;  (loader.ts:36) *)
  resolvedInputs : option PromiseId;   (* let resolvedInputs;  (loader.ts:37) *)
  heap : list Cell;                    (* the promise store *)
  clock : nat;                         (* the host's clock *)
  resolveId_log : list string          (* arguments of this.resolveId so far *)
}.

(** The state [loader(opts)] starts from: both variables undefined. *)
Definition loader : World :=
  {| inputs := IUndefined; resolvedInputs := None;
     heap := []; clock := 0; resolveId_log := [] |}.

Definition status (w : World) (p : PromiseId) : Status :=
  nth p (statuses (heap w)) Pending.

Definition set_inputs (v : InputValue) (w : World) : World :=
  {| inputs := v; resolvedInputs := resolvedInputs w;
     heap := heap w; clock := clock w; resolveId_log := resolveId_log w |}.

Definition set_resolvedInputs (p : PromiseId) (w : World) : World :=
  {| inputs := inputs w; resolvedInputs := Some p;
     heap := heap w; clock := clock w; resolveId_log := resolveId_log w |}.

(** A new promise: the cell goes to the end of the store. *)
Definition alloc (c : Cell) (w : World) : PromiseId * World :=
  (List.length (heap w),
   {| inputs := inputs w; resolvedInputs := resolvedInputs w;
      heap := (heap w ++ [c])%list; clock := clock w;
      resolveId_log := resolveId_log w |}).

(** [this.resolveId(id)]: the host notes the request and hands out a
    pending promise. *)
Definition resolveId (id : string) (w : World) : PromiseId * World :=
  alloc (HostPromise id None)
    {| inputs := inputs w; resolvedInputs := resolvedInputs w;
       heap := heap w; clock := clock w;
       resolveId_log := (resolveId_log w ++ [id])%list |}.

(** [inputs.map(id => this.resolveId(id))] on the elements [xs]. *)
Fixpoint map_resolveId (xs : list string) (w : World)
  : list PromiseId * World :=
  match xs with
  | [] => ([], w)
  | id :: r =>
      let '(p, w1) := resolveId id w in
      let '(ps, w2) := map_resolveId r w1 in
      (p :: ps, w2)
  end.

(** The host settles a promise it handed out; a settled promise stays
    as it is, and only the host's own promises can be settled this way. *)
Fixpoint settle_cell (p : PromiseId) (now : nat) (s : Settlement)
    (h : list Cell) : list Cell :=
  match h, p with
  | [], _ => []
  | HostPromise id None :: r, O => HostPromise id (Some (now, s)) :: r
  | c :: r, O => c :: r
  | c :: r, S p' => c :: settle_cell p' now s r
  end.

Definition host_settle (p : PromiseId) (s : Settlement) (w : World) : World :=
  {| inputs := inputs w; resolvedInputs := resolvedInputs w;
     heap := settle_cell p (clock w) s (heap w); clock := S (clock w);
     resolveId_log := resolveId_log w |}.

(* ------------------------------------------------------------------ *)
(** ** The hooks *)

(** [options({ input })]  (loader.ts:41-49) *)
Definition options (input : InputValue) (w : World) : Completion unit * World :=
  let w1 := set_inputs input w in
  let w2 :=
    if typeof (inputs w1) =? "string" then
      match inputs w1 with
      | IString s => set_inputs (IArray [s]) w1     (* inputs = [inputs] *)
      | _ => w1
      end
    else w1 in
  if typeof (inputs w2) =? "object" then
    match Object_values (inputs w2) with
    | Normal vs => (Normal tt, set_inputs (IArray vs) w2)
    | Throw e => (Throw e, w2)
    end
  else (Normal tt, w2).

(** [outputOptions.banner]: absent, a string, or a function (of which
    only [.length], its number of parameters, is looked at). *)
Inductive BannerOption :=
| BannerAbsent
| BannerString (s : string)
| BannerFunction (arity : nat).

Record OutputOptions := mkOutputOptions {
  format : option string;      (* None: the property is undefined *)
  banner : BannerOption
}.

Module Chunk.
Record t := mk { id : string }.
End Chunk.

Definition truthy (b : BannerOption) : bool :=
  match b with
  | BannerAbsent => false
  | BannerString s => negb (s =? "")
  | BannerFunction _ => true
  end.

(** [banner.length], read only when [banner] is truthy. *)
Definition banner_length (b : BannerOption) : nat :=
  match b with
  | BannerAbsent => 0
  | BannerString s => String.length s
  | BannerFunction arity => arity
  end.

(** [outputOptions.banner && outputOptions.banner.length > 0] *)
Definition banner_is_set (o : OutputOptions) : bool :=
  truthy (banner o) && (0 <? banner_length (banner o))%nat.

(** [outputOptions.format !== "amd"] *)
Definition format_is_not_amd (o : OutputOptions) : bool :=
  match format o with
  | Some f => negb (f =? "amd")
  | None => true
  end.

Definition format_message : string := "You must set output.format to 'amd'".

(** The apostrophe of this message is outside ASCII and takes three
    [ascii]s here; nothing below depends on the length of the message. *)
Definition banner_message : string :=
  "Loadz0r currently doesn’t work with `banner`. Feel free to submit a PR at https://github.com/surma/rollup-plugin-loadz0r".

(** loader.ts:75-77: the promise in [resolvedInputs], made on first use.
    [inputs.map] is callable only when [inputs] is an array. *)
Definition resolve_inputs (w : World) : Completion PromiseId * World :=
  match resolvedInputs w with
  | Some q => (Normal q, w)
  | None =>
      match inputs w with
      | IArray xs =>
          let '(ps, w1) := map_resolveId xs w in
          let '(q, w2) := alloc (AllPromise ps) w1 in
          (Normal q, set_resolvedInputs q w2)
      | _ => (Throw TypeError, w)
      end
  end.

(** [transformChunk(code, outputOptions, chunk)]  (loader.ts:51-88).
    [Throw] is an exception raised by the call itself; [Normal p] is the
    promise the call returns. *)
Definition transformChunk (code : string) (outputOptions : OutputOptions)
    (chunk : Chunk.t) (w : World) : Completion PromiseId * World :=
  if format_is_not_amd outputOptions then (Throw (Error format_message), w)
  else if banner_is_set outputOptions
  then (Throw (Error banner_message), w)
  else
    let id := "./" ++ Chunk.id chunk in
    let magicCode := MagicString.new code in
    match MagicString.remove 0 (String.length "define(") magicCode with
    | Throw e => (Throw e, w)
    | Normal magicCode =>
        let magicCode :=
          if negb (startsWith code "define([")
          then MagicString.prepend "[]," magicCode
          else magicCode in
        let magicCode :=
          MagicString.prepend ("define(" ++ dquote ++ id ++ dquote ++ ",")
            magicCode in
        match resolve_inputs w with
        | (Throw e, w1) => (Throw e, w1)
        | (Normal q, w1) =>
            let '(p, w2) :=
              alloc (ThenPromise q (fun _inputs =>
                       PChunk (MagicString.toString magicCode)
                              (generateMap true magicCode))) w1 in
            (Normal p, w2)
        end
    end.

(* ------------------------------------------------------------------ *)
(** ** A build, seen from the plugin

    What happens to one plugin instance after [options]: the bundler
    calls [transformChunk], and the host settles promises it handed out,
    in any order. *)

Inductive Event :=
| Call (code : string) (outputOptions : OutputOptions) (chunk : Chunk.t)
| Settle (p : PromiseId) (s : Settlement).

(** Runs the events in order; returns what each call returned. *)
Fixpoint run (evs : list Event) (w : World)
  : list (Completion PromiseId) * World :=
  match evs with
  | [] => ([], w)
  | Call code o c :: r =>
      let '(res, w1) := transformChunk code o c w in
      let '(rs, w2) := run r w1 in
      (res :: rs, w2)
  | Settle p s :: r => run r (host_settle p s w)
  end.

(** The promises a list of call results holds. *)
Fixpoint returned (rs : list (Completion PromiseId)) : list PromiseId :=
  match rs with
  | [] => []
  | Normal p :: r => p :: returned r
  | Throw _ :: r => returned r
  end.

(* ------------------------------------------------------------------ *)
(** ** Vocabulary of the statements *)

(** The text [transformChunk] builds: the named [define(] head, the
    empty dependency array when the code does not open with one, and the
    code from offset 7 on. *)
Definition rewritten (code : string) (chunk : Chunk.t) : string :=
  "define(" ++ dquote ++ "./" ++ Chunk.id chunk ++ dquote ++ ","
    ++ (if startsWith code "define([" then "" else "[],")
    ++ slice 7 code.

(** From [h] to [h']: every cell is still there; a host promise may have
    been settled, nothing else differs. *)
Definition evolves (h h' : list Cell) : Prop :=
  forall i c, nth_error h i = Some c ->
    match c with
    | HostPromise x _ => exists s, nth_error h' i = Some (HostPromise x s)
    | _ => nth_error h' i = Some c
    end.

(** [q] is the entry promise for the entry list [xs]: [Promise.all] over
    one host promise per entry, in the order of the list. *)
Definition entry_promise (xs : list string) (w : World) (q : PromiseId) : Prop :=
  exists ms,
    nth_error (heap w) q = Some (AllPromise ms) /\
    Forall (fun m => m < q) ms /\
    Forall2 (fun x m => exists s,
               nth_error (heap w) m = Some (HostPromise x s)) xs ms.

(** [p] is a chunk result waiting on [q]: a [then] on [q] that yields a
    [{code, map}] object. *)
Definition chunk_result (w : World) (q p : PromiseId) : Prop :=
  exists f,
    nth_error (heap w) p = Some (ThenPromise q f) /\ q < p /\
    forall v, exists code m, f v = PChunk code m.

(** What holds of a plugin instance throughout a build with entry list
    [xs], [ps] being the promises its calls have returned so far. *)
Definition build_inv (xs : list string) (w : World) (ps : list PromiseId) : Prop :=
  inputs w = IArray xs /\
  match resolvedInputs w with
  | None => resolveId_log w = [] /\ ps = []
  | Some q =>
      resolveId_log w = xs /\ ps <> [] /\
      entry_promise xs w q /\ Forall (chunk_result w q) ps
  end.

(** The call returns a promise, a [then] on the entry promise whose
    callback yields [{code: out, map: ...}]. *)
Definition returns_code (code : string) (o : OutputOptions) (c : Chunk.t)
    (w : World) (out : string) : Prop :=
  exists p q f w',
    transformChunk code o c w = (Normal p, w') /\
    resolvedInputs w' = Some q /\
    nth_error (heap w') p = Some (ThenPromise q f) /\
    forall v, exists m, f v = PChunk out m.

(** The states the examples start from. *)
Definition amd_output : OutputOptions :=
  {| format := Some "amd"; banner := BannerAbsent |}.

Definition after_options : World :=
  snd (options (IString "src/index.js") loader).

(** Two calls made before the host has settled anything. *)
Definition two_calls : list Event :=
  [ Call "define(['./dep'],function(d){})" amd_output (Chunk.mk "a");
    Call "define(function(){})" amd_output (Chunk.mk "b") ].

(** A build in which the host fails to resolve the entry; one call is
    made before the failure and one after. *)
Definition failing_build : list Event :=
  [ Call "define(['./dep'],function(d){})" amd_output (Chunk.mk "a");
    Settle 0 (Rejected (Error "Could not resolve entry"));
    Call "define(function(){})" amd_output (Chunk.mk "b") ].

(* ------------------------------------------------------------------ *)
(** ** The options of [loader]  (loader.ts:25-31)

    An object is the list of its own enumerable properties in the order
    they were created; a well-formed one has no key twice. *)

Inductive OptValue :=
| OUndefined
| OBoolean (b : bool)
| OString (s : string).

(** [const defaultOpts = { useEval: false, publicPath: undefined }] *)
Definition defaultOpts : list (string * OptValue) :=
  [("useEval", OBoolean false); ("publicPath", OUndefined)].

(** What [loader] is called with: nothing, [null], or an object. *)
Inductive LoaderArg :=
| ArgAbsent
| ArgNull
| ArgObject (props : list (string * OptValue)).

(** [o[k]] on own properties. *)
Fixpoint get {V} (k : string) (o : list (string * V)) : option V :=
  match o with
  | [] => None
  | (k', v) :: r => if k =? k' then Some v else get k r
  end.

(** [o[k] = v]: an existing property keeps its place, a new one goes to
    the end. *)
Fixpoint set_prop {V} (k : string) (v : V) (o : list (string * V))
  : list (string * V) :=
  match o with
  | [] => [(k, v)]
  | (k', v') :: r =>
      if k =? k' then (k, v) :: r else (k', v') :: set_prop k v r
  end.

Fixpoint insert_entry {V} (n : N) (kv : string * V)
    (l : list (N * (string * V))) : list (N * (string * V)) :=
  match l with
  | [] => [(n, kv)]
  | (n', kv') :: r =>
      if (n <? n')%N then (n, kv) :: l else (n', kv') :: insert_entry n kv r
  end.

Fixpoint index_entries {V} (o : list (string * V)) : list (N * (string * V)) :=
  match o with
  | [] => []
  | (k, v) :: r =>
      match array_index k with
      | Some n => insert_entry n (k, v) (index_entries r)
      | None => index_entries r
      end
  end.

Fixpoint named_entries {V} (o : list (string * V)) : list (string * V) :=
  match o with
  | [] => []
  | (k, v) :: r =>
      match array_index k with
      | Some _ => named_entries r
      | None => (k, v) :: named_entries r
      end
  end.

(** The own properties in the order the runtime enumerates them: array
    indices ascending, then the other keys as created. *)
Definition own_entries {V} (o : list (string * V)) : list (string * V) :=
  (map snd (index_entries o) ++ named_entries o)%list.

(** [{ ...target, ...source }] continued from [target]: every own
    property of [source] is set on it, in enumeration order. *)
Definition spread {V} (target source : list (string * V))
  : list (string * V) :=
  fold_left (fun t kv => set_prop (fst kv) (snd kv) t) (own_entries source) target.

(** The value of [opts] after loader.ts:30-31: the parameter defaults to
    [{}] when nothing is passed, and spreading [null] adds nothing. *)
Definition loader_opts (opts : LoaderArg) : list (string * OptValue) :=
  let opts := match opts with ArgAbsent => ArgObject [] | _ => opts end in
  let merged := spread [] defaultOpts in
  match opts with
  | ArgObject props => spread merged props
  | _ => merged
  end.

(* ------------------------------------------------------------------ *)
(** ** A plugin instance over its life

    Besides calls and settlements, the bundler may run [options] again
    on the same instance. *)

Inductive Action :=
| Capture (input : InputValue)
| Host (ev : Event).

Definition act (a : Action) (w : World) : World :=
  match a with
  | Capture input => snd (options input w)
  | Host (Call code o c) => snd (transformChunk code o c w)
  | Host (Settle p s) => host_settle p s w
  end.

Definition run_actions (acts : list Action) (w : World) : World :=
  fold_left (fun w a => act a w) acts w.

(** Every time stamp in the store is in the past. *)
Definition times_in_past (w : World) : Prop :=
  forall x t s, In (HostPromise x (Some (t, s))) (heap w) -> t < clock w.

(** [s'] is what [s] can have become after a settlement at time [T]. *)
Definition later (T : nat) (s s' : Status) : Prop :=
  s' = s \/ (s = Pending /\ exists r, s' = Settled T r).

(** [s], if settled, was settled before [T]. *)
Definition before (T : nat) (s : Status) : Prop :=
  forall t r, s = Settled t r -> t < T.

(* ------------------------------------------------------------------ *)
(** ** Strings and the text splice *)

Lemma append_empty_r (s : string) : s ++ "" = s.
Proof. induction s as [|c s IH]; simpl; [reflexivity | now rewrite IH]. Qed.

Lemma slice_empty (n : nat) : slice n "" = "".
Proof. destruct n; reflexivity. Qed.

Lemma nonempty_truthy (s : string) :
  s <> "" -> negb (s =? "") = true /\ (0 <? String.length s)%nat = true.
Proof. destruct s as [|c s]; [congruence | intros _; split; reflexivity]. Qed.

(** Taking [0, n) out of a text leaves the text from offset [n] on. *)
Lemma surviving_prefix_removed (n : nat) (s : string) (i : nat) :
  MagicString.surviving [(0, n)] i s = slice (n - i) s.
Proof.
  revert i; induction s as [|c s IH]; intros i; simpl.
  - now rewrite slice_empty.
  - unfold MagicString.is_removed; simpl. rewrite orb_false_r.
    destruct (Nat.ltb_spec i n) as [Hlt | Hge].
    + rewrite IH. replace (n - i) with (S (n - S i)) by lia. reflexivity.
    + rewrite IH. replace (n - i) with 0 by lia.
      replace (n - S i) with 0 by lia. reflexivity.
Qed.

Lemma append_assoc (a b c : string) : (a ++ b) ++ c = a ++ (b ++ c).
Proof. induction a as [|x a IH]; simpl; [reflexivity | now rewrite IH]. Qed.

(** [remove(0, 7)] goes through exactly on a code of seven characters or
    more. *)
Lemma remove_head_ok (code : string) :
  7 <= String.length code ->
  MagicString.remove 0 7 (MagicString.new code) =
  Normal {| MagicString.original := code; MagicString.intro := "";
            MagicString.removed := [(0, 7)]; MagicString.outro := "" |}.
Proof.
  intros H. unfold MagicString.remove; simpl.
  destruct (Nat.ltb_spec (String.length code) 7); [lia | reflexivity].
Qed.

Lemma remove_head_short (code : string) :
  String.length code < 7 ->
  MagicString.remove 0 7 (MagicString.new code) =
  Throw (Error "Character is out of bounds").
Proof.
  intros H. unfold MagicString.remove; simpl.
  destruct (Nat.ltb_spec (String.length code) 7); [reflexivity | lia].
Qed.

(** A call that gets past the two checks and the splice, in a world where
    the entry promise can be had: the call returns the next free promise,
    a [then] on the entry promise whose callback yields the rewritten
    text. *)
Lemma transformChunk_returns code o c w q w1 :
  format o = Some "amd" ->
  banner_is_set o = false ->
  7 <= String.length code ->
  resolve_inputs w = (Normal q, w1) ->
  exists f,
    transformChunk code o c w =
      (Normal (List.length (heap w1)), snd (alloc (ThenPromise q f) w1)) /\
    forall v, exists m, f v = PChunk (rewritten code c) m.
Proof.
  intros Hf Hb Hlen Hr. unfold transformChunk, format_is_not_amd.
  rewrite Hf, Hb. simpl String.length. rewrite (remove_head_ok code Hlen).
  rewrite Hr. cbv zeta. unfold alloc. simpl negb. eexists; split; [reflexivity|].
  intros v. eexists. f_equal. unfold rewritten, startsWith.
  destruct (String.prefix "define([" code);
    unfold MagicString.toString, MagicString.prepend;
    cbn [negb MagicString.intro MagicString.removed MagicString.original
         MagicString.outro];
    rewrite surviving_prefix_removed, Nat.sub_0_r, !append_empty_r;
    rewrite ?append_assoc; cbn [append]; rewrite ?append_assoc;
    reflexivity.
Qed.

(* ------------------------------------------------------------------ *)
(** ** How the promise store changes *)

Lemma evolves_refl h : evolves h h.
Proof. intros i c H. destruct c; eauto. Qed.

Lemma evolves_trans h1 h2 h3 : evolves h1 h2 -> evolves h2 h3 -> evolves h1 h3.
Proof.
  intros H12 H23 i c H. specialize (H12 i c H). destruct c.
  - destruct H12 as [s Hs]. exact (H23 i _ Hs).
  - exact (H23 i _ H12).
  - exact (H23 i _ H12).
Qed.

Lemma evolves_app h t : evolves h (h ++ t).
Proof.
  intros i c H.
  assert (Hi : nth_error (h ++ t) i = Some c).
  { rewrite nth_error_app1; [exact H | apply nth_error_Some; congruence]. }
  destruct c; eauto.
Qed.

Lemma evolves_settle p now s h : evolves h (settle_cell p now s h).
Proof.
  revert p; induction h as [|c0 h IH]; intros p i c H.
  - destruct i; discriminate.
  - destruct p as [|p'].
    + destruct i as [|i']; simpl in H.
      * injection H as <-. destruct c0 as [x [st|]| |]; simpl; eauto.
      * assert (Hi : nth_error (settle_cell 0 now s (c0 :: h)) (S i') = Some c).
        { destruct c0 as [x [st|]| |]; exact H. }
        destruct c; eauto.
    + destruct i as [|i']; simpl in H.
      * injection H as <-.
        assert (Hi : nth_error (settle_cell (S p') now s (c0 :: h)) 0 = Some c0).
        { destruct c0 as [x [st|]| |]; reflexivity. }
        destruct c0; eauto.
      * specialize (IH p' i' c H).
        assert (Hi : nth_error (settle_cell (S p') now s (c0 :: h)) (S i')
                     = nth_error (settle_cell p' now s h) i').
        { destruct c0 as [x [st|]| |]; reflexivity. }
        rewrite Hi. exact IH.
Qed.

(** [inputs.map(id => this.resolveId(id))]: one request and one fresh
    pending promise per element, in order. *)
Lemma map_resolveId_spec xs w :
  map_resolveId xs w =
  (seq (List.length (heap w)) (List.length xs),
   {| inputs := inputs w; resolvedInputs := resolvedInputs w;
      heap := (heap w ++ map (fun x => HostPromise x None) xs)%list;
      clock := clock w;
      resolveId_log := (resolveId_log w ++ xs)%list |}).
Proof.
  revert w; induction xs as [|x xs IH]; intros w.
  - destruct w; simpl. now rewrite !app_nil_r.
  - simpl. unfold resolveId, alloc. rewrite IH. simpl.
    rewrite length_app, Nat.add_1_r, <- !app_assoc. reflexivity.
Qed.

Lemma fresh_host_promises xs : forall h tl,
  Forall2 (fun x m => exists s,
             nth_error (h ++ map (fun x => HostPromise x None) xs ++ tl) m
             = Some (HostPromise x s))
          xs (seq (List.length h) (List.length xs)).
Proof.
  induction xs as [|x xs IH]; intros h tl; simpl; constructor.
  - exists None. rewrite nth_error_app2, Nat.sub_diag by lia. reflexivity.
  - specialize (IH (h ++ [HostPromise x None])%list tl).
    rewrite length_app, Nat.add_1_r, <- app_assoc in IH. exact IH.
Qed.

Lemma entry_promise_evolves xs w w' q :
  evolves (heap w) (heap w') -> entry_promise xs w q -> entry_promise xs w' q.
Proof.
  intros He (ms & Hq & Hlt & Hms). exists ms. split; [|split].
  - exact (He q _ Hq).
  - exact Hlt.
  - eapply Forall2_impl; [|exact Hms]. intros x m [s Hs]. exact (He m _ Hs).
Qed.

Lemma chunk_result_evolves w w' q p :
  evolves (heap w) (heap w') -> chunk_result w q p -> chunk_result w' q p.
Proof.
  intros He (f & Hp & Hlt & Hf). exists f. split; [|split]; auto.
  exact (He p _ Hp).
Qed.

(** loader.ts:75-77 on an instance whose entry list is [xs]: the entry
    promise is there afterwards, and [this.resolveId] has been called on
    the elements of [xs], once each, whether or not this call made it. *)
Lemma resolve_inputs_spec xs w :
  inputs w = IArray xs ->
  match resolvedInputs w with
  | None => resolveId_log w = []
  | Some q => resolveId_log w = xs /\ entry_promise xs w q
  end ->
  exists q w1,
    resolve_inputs w = (Normal q, w1) /\
    evolves (heap w) (heap w1) /\
    inputs w1 = IArray xs /\ resolvedInputs w1 = Some q /\
    resolveId_log w1 = xs /\ entry_promise xs w1 q /\
    (forall q0, resolvedInputs w = Some q0 -> q0 = q).
Proof.
  intros Hin H. unfold resolve_inputs.
  destruct (resolvedInputs w) as [q|] eqn:Hres.
  - destruct H as [Hlog Hq]. exists q, w. repeat split; auto using evolves_refl.
    intros q0 [= <-]. reflexivity.
  - rewrite Hin, map_resolveId_spec. unfold alloc, set_resolvedInputs; simpl.
    eexists _, _. split; [reflexivity|]. simpl. rewrite H. simpl.
    repeat split; auto.
    + rewrite <- app_assoc. apply evolves_app.
    + exists (seq (List.length (heap w)) (List.length xs)). split; [|split].
      * simpl. rewrite nth_error_app2 by lia. now rewrite Nat.sub_diag.
      * apply Forall_forall. intros m Hm. apply in_seq in Hm.
        rewrite length_app, length_map. lia.
      * simpl. rewrite <- app_assoc. apply fresh_host_promises.
    + discriminate.
Qed.

(* ------------------------------------------------------------------ *)
(** ** The ways a call can go *)

Lemma format_checked (o : OutputOptions) :
  format_is_not_amd o = false <-> format o = Some "amd".
Proof.
  unfold format_is_not_amd. destruct (format o) as [f|].
  - destruct (String.eqb_spec f "amd") as [->|Hne]; simpl; split;
      intros H; try reflexivity; try discriminate. congruence.
  - split; discriminate.
Qed.

Lemma format_refused (o : OutputOptions) :
  format o <> Some "amd" -> format_is_not_amd o = true.
Proof.
  intros H. destruct (format_is_not_amd o) eqn:E; [reflexivity|].
  apply format_checked in E. contradiction.
Qed.

Lemma transformChunk_format code o c w :
  format o <> Some "amd" ->
  transformChunk code o c w = (Throw (Error format_message), w).
Proof. intros H. unfold transformChunk. now rewrite (format_refused o H). Qed.

Lemma transformChunk_banner code o c w :
  format o = Some "amd" -> banner_is_set o = true ->
  transformChunk code o c w = (Throw (Error banner_message), w).
Proof.
  intros Hf Hb. unfold transformChunk.
  apply format_checked in Hf. now rewrite Hf, Hb.
Qed.

Lemma transformChunk_short code o c w :
  format o = Some "amd" -> banner_is_set o = false ->
  String.length code < 7 ->
  transformChunk code o c w = (Throw (Error "Character is out of bounds"), w).
Proof.
  intros Hf Hb Hlen. unfold transformChunk.
  apply format_checked in Hf. rewrite Hf, Hb. simpl String.length.
  now rewrite (remove_head_short code Hlen).
Qed.

Lemma transformChunk_no_entries code o c w :
  format o = Some "amd" -> banner_is_set o = false ->
  7 <= String.length code ->
  resolve_inputs w = (Throw TypeError, w) ->
  transformChunk code o c w = (Throw TypeError, w).
Proof.
  intros Hf Hb Hlen Hr. unfold transformChunk.
  apply format_checked in Hf. rewrite Hf, Hb. simpl String.length.
  now rewrite (remove_head_ok code Hlen), Hr.
Qed.

(** Before [options] has run there is no entry list to map over. *)
Example transformChunk_before_options :
  transformChunk "define(function(){})"
    {| format := Some "amd"; banner := BannerAbsent |} (Chunk.mk "main") loader
  = (Throw TypeError, loader).
Proof. now apply transformChunk_no_entries; try (simpl; lia). Qed.

(** A call either throws and leaves the instance as it was, or returns a
    chunk result on the entry promise. *)
Lemma build_inv_call xs w ps code o c res w' :
  build_inv xs w ps ->
  transformChunk code o c w = (res, w') ->
  build_inv xs w' (ps ++ returned [res]) /\ evolves (heap w) (heap w').
Proof.
  intros [Hin Hinv] Hcall.
  assert (Hsame : forall e, transformChunk code o c w = (Throw e, w) ->
            build_inv xs w' (ps ++ returned [res]) /\ evolves (heap w) (heap w')).
  { intros e He. rewrite He in Hcall. injection Hcall as <- <-. simpl.
    rewrite app_nil_r. split; [split; assumption | apply evolves_refl]. }
  destruct (format_is_not_amd o) eqn:Ef.
  { apply (Hsame (Error format_message)). unfold transformChunk. now rewrite Ef. }
  apply format_checked in Ef.
  destruct (banner_is_set o) eqn:Eb.
  { apply (Hsame (Error banner_message)). now apply transformChunk_banner. }
  destruct (le_lt_dec 7 (String.length code)) as [Hlen|Hlen].
  2:{ apply (Hsame (Error "Character is out of bounds")).
      now apply transformChunk_short. }
  destruct (resolve_inputs_spec xs w Hin) as (q & w1 & Hr & Hev & Hin1 & Hres1 & Hlog1 & Hq1 & Hq0).
  { destruct (resolvedInputs w); tauto. }
  destruct (transformChunk_returns code o c w q w1 Ef Eb Hlen Hr) as (f & Hc & Hf).
  rewrite Hc in Hcall. injection Hcall as <- <-. simpl.
  assert (Hev1 : evolves (heap w1) (heap w1 ++ [ThenPromise q f])) by apply evolves_app.
  assert (Hqlt : q < List.length (heap w1)).
  { destruct Hq1 as (ms & Hq & _). apply nth_error_Some. congruence. }
  split; [|eapply evolves_trans; eassumption].
  split; [exact Hin1|]. simpl. rewrite Hres1.
  split; [exact Hlog1|]. split; [destruct ps; discriminate|]. split.
  - eapply entry_promise_evolves; [|exact Hq1]. exact Hev1.
  - apply Forall_app. split.
    + destruct (resolvedInputs w) as [q0|] eqn:Hres.
      * destruct Hinv as (_ & _ & _ & Hps). rewrite (Hq0 q0 eq_refl) in Hps.
        eapply Forall_impl; [|exact Hps]. intros p Hp.
        eapply chunk_result_evolves; [|exact Hp].
        simpl. eapply evolves_trans; eassumption.
      * destruct Hinv as [_ ->]. constructor.
    + constructor; [|constructor]. exists f. split; [|split].
      * simpl. rewrite nth_error_app2, Nat.sub_diag by lia. reflexivity.
      * exact Hqlt.
      * intros v. destruct (Hf v) as [m Hm]. eauto.
Qed.

Lemma build_inv_settle xs w ps p s :
  build_inv xs w ps -> build_inv xs (host_settle p s w) ps.
Proof.
  intros [Hin Hinv]. split; [exact Hin|]. simpl.
  destruct (resolvedInputs w) as [q|]; [|exact Hinv].
  destruct Hinv as (Hlog & Hne & Hq & Hps). repeat split; auto.
  - eapply entry_promise_evolves; [|exact Hq]. apply evolves_settle.
  - eapply Forall_impl; [|exact Hps]. intros p0.
    apply chunk_result_evolves. apply evolves_settle.
Qed.

Lemma build_inv_run evs : forall xs w ps rs w',
  build_inv xs w ps ->
  run evs w = (rs, w') ->
  build_inv xs w' (ps ++ returned rs).
Proof.
  induction evs as [|ev evs IH]; intros xs w ps rs w' Hinv Hrun; simpl in Hrun.
  - injection Hrun as <- <-. simpl. now rewrite app_nil_r.
  - destruct ev as [code o c | p s].
    + destruct (transformChunk code o c w) as [res w1] eqn:Hc.
      destruct (run evs w1) as [rs1 w2] eqn:Hr.
      injection Hrun as <- <-.
      destruct (build_inv_call _ _ _ _ _ _ _ _ Hinv Hc) as [Hinv1 _].
      specialize (IH _ _ _ _ _ Hinv1 Hr).
      rewrite <- app_assoc in IH.
      destruct res; exact IH.
    + eapply IH; [|exact Hrun]. now apply build_inv_settle.
Qed.

(* ------------------------------------------------------------------ *)
(** ** The state of a promise *)

Lemma statuses_snoc h c :
  statuses (h ++ [c]) = (statuses h ++ [status_cell (statuses h) c])%list.
Proof. unfold statuses. now rewrite fold_left_app. Qed.

Lemma statuses_length h : List.length (statuses h) = List.length h.
Proof.
  induction h as [|c h IH] using rev_ind; [reflexivity|].
  rewrite statuses_snoc, !length_app, IH. reflexivity.
Qed.

Lemma nth_firstn_lt {A} (l : list A) (d : A) : forall i n,
  i < n -> nth i (firstn n l) d = nth i l d.
Proof.
  induction l as [|a l IH]; intros i n Hlt.
  - rewrite firstn_nil. reflexivity.
  - destruct n as [|n]; [lia|]. destruct i as [|i]; simpl; [reflexivity|].
    apply IH. lia.
Qed.

(** The state of a cell depends on the cells before it only. *)
Lemma status_at h : forall i c,
  nth_error h i = Some c ->
  nth i (statuses h) Pending = status_cell (firstn i (statuses h)) c.
Proof.
  induction h as [|c0 h IH] using rev_ind; intros i c H.
  - destruct i; discriminate.
  - rewrite statuses_snoc.
    destruct (Nat.lt_ge_cases i (List.length h)) as [Hlt|Hge].
    + rewrite nth_error_app1 in H by exact Hlt.
      rewrite app_nth1 by (rewrite statuses_length; exact Hlt).
      rewrite firstn_app, statuses_length.
      replace (i - List.length h) with 0 by lia.
      rewrite firstn_O, app_nil_r. now apply IH.
    + assert (Hi : i = List.length h).
      { assert (i < List.length (h ++ [c0])) by (apply nth_error_Some; congruence).
        rewrite length_app in *; simpl in *; lia. }
      subst i. rewrite nth_error_app2, Nat.sub_diag in H by lia.
      injection H as <-.
      rewrite app_nth2, statuses_length, Nat.sub_diag by (rewrite statuses_length; lia).
      rewrite firstn_app, statuses_length, Nat.sub_diag, firstn_O, app_nil_r.
      rewrite <- (statuses_length h), firstn_all. reflexivity.
Qed.

Lemma status_host w m x s :
  nth_error (heap w) m = Some (HostPromise x s) ->
  status w m = match s with
               | None => Pending
               | Some (t, r) => Settled t r
               end.
Proof.
  intros H. unfold status. rewrite (status_at _ _ _ H).
  destruct s as [[t r]|]; reflexivity.
Qed.

Lemma status_then w p q f :
  nth_error (heap w) p = Some (ThenPromise q f) -> q < p ->
  status w p = match status w q with
               | Pending => Pending
               | Settled t (Fulfilled v) => Settled t (Fulfilled (f v))
               | Settled t (Rejected e) => Settled t (Rejected e)
               end.
Proof.
  intros H Hlt. unfold status. rewrite (status_at _ _ _ H). simpl.
  now rewrite nth_firstn_lt.
Qed.

Lemma status_all w q ms :
  nth_error (heap w) q = Some (AllPromise ms) ->
  Forall (fun m => m < q) ms ->
  status w q = all_status (map (status w) ms).
Proof.
  intros H Hlt. unfold status at 1. rewrite (status_at _ _ _ H). simpl.
  f_equal. apply map_ext_in. intros m Hm.
  rewrite Forall_forall in Hlt. unfold status. now rewrite nth_firstn_lt by auto.
Qed.

Lemma first_rejection_found ss t e :
  In (Settled t (Rejected e)) ss ->
  exists t' e', first_rejection ss = Some (t', e').
Proof.
  induction ss as [|s ss IH]; intros Hin; [contradiction|].
  destruct Hin as [->|Hin]; simpl.
  - destruct (first_rejection ss) as [[t' e']|]; [|eauto].
    destruct (t' <? t)%nat; eauto.
  - destruct (IH Hin) as (t' & e' & ->).
    destruct s as [|t0 [v|e0]]; eauto.
    destruct (t' <? t0)%nat; eauto.
Qed.

Lemma all_status_rejected ss t e :
  In (Settled t (Rejected e)) ss ->
  exists t' e', all_status ss = Settled t' (Rejected e').
Proof.
  intros H. destruct (first_rejection_found ss t e H) as (t' & e' & Hr).
  exists t', e'. unfold all_status. now rewrite Hr.
Qed.

Lemma all_status_fulfilled ss :
  Forall (fun s => exists t v, s = Settled t (Fulfilled v)) ss ->
  exists t vs, all_status ss = Settled t (Fulfilled (PArray vs)).
Proof.
  intros H.
  assert (Hr : first_rejection ss = None /\ exists t vs, all_fulfilled ss = Some (t, vs)).
  { induction H as [|s ss (t & v & ->) _ [IH1 (t' & vs & IH2)]]; simpl.
    - eauto.
    - rewrite IH1, IH2. eauto. }
  destruct Hr as [Hr (t & vs & Hf)]. exists t, vs.
  unfold all_status. now rewrite Hr, Hf.
Qed.

(** A chunk result follows its entry promise. *)
Lemma chunk_result_status w q p :
  chunk_result w q p ->
  exists f,
    nth_error (heap w) p = Some (ThenPromise q f) /\
    (forall v, exists code m, f v = PChunk code m) /\
    (status w q = Pending -> status w p = Pending) /\
    (forall t e, status w q = Settled t (Rejected e) ->
                 status w p = Settled t (Rejected e)) /\
    (forall t v, status w q = Settled t (Fulfilled v) ->
                 status w p = Settled t (Fulfilled (f v))) /\
    (forall t out, status w p = Settled t (Fulfilled out) ->
                   exists v, status w q = Settled t (Fulfilled v) /\ out = f v).
Proof.
  intros (f & Hp & Hlt & Hf). exists f.
  pose proof (status_then w p q f Hp Hlt) as Hs.
  repeat split; auto.
  - intros Hq. now rewrite Hs, Hq.
  - intros t e Hq. now rewrite Hs, Hq.
  - intros t v Hq. now rewrite Hs, Hq.
  - intros t out Ho. rewrite Hs in Ho.
    destruct (status w q) as [|t0 [v|e]]; try discriminate.
    injection Ho as -> <-. eauto.
Qed.

(* ------------------------------------------------------------------ *)
(** ** What a call returns *)

Lemma resolve_inputs_total xs w :
  inputs w = IArray xs ->
  exists q w1, resolve_inputs w = (Normal q, w1) /\ resolvedInputs w1 = Some q.
Proof.
  intros Hin. unfold resolve_inputs.
  destruct (resolvedInputs w) as [q|] eqn:Hres; [eauto|].
  rewrite Hin, map_resolveId_spec. unfold alloc, set_resolvedInputs; simpl.
  eexists _, _. split; reflexivity.
Qed.

Lemma transformChunk_rewrites code o c w xs :
  format o = Some "amd" -> banner_is_set o = false ->
  7 <= String.length code -> inputs w = IArray xs ->
  returns_code code o c w (rewritten code c).
Proof.
  intros Hf Hb Hlen Hin.
  destruct (resolve_inputs_total xs w Hin) as (q & w1 & Hr & Hres).
  destruct (transformChunk_returns code o c w q w1 Hf Hb Hlen Hr) as (f & Hc & Hout).
  exists (List.length (heap w1)), q, f, (snd (alloc (ThenPromise q f) w1)).
  split; [exact Hc|]. split; [exact Hres|]. split; [|exact Hout].
  simpl. rewrite nth_error_app2, Nat.sub_diag by lia. reflexivity.
Qed.

Lemma transformChunk_normal code o c w p w' :
  transformChunk code o c w = (Normal p, w') ->
  format o = Some "amd" /\ banner_is_set o = false /\
  7 <= String.length code /\
  exists q w1, resolve_inputs w = (Normal q, w1).
Proof.
  intros H.
  destruct (format_is_not_amd o) eqn:Ef.
  { unfold transformChunk in H. rewrite Ef in H. discriminate. }
  apply format_checked in Ef.
  destruct (banner_is_set o) eqn:Eb.
  { rewrite transformChunk_banner in H by assumption. discriminate. }
  destruct (le_lt_dec 7 (String.length code)) as [Hlen|Hlen].
  2:{ rewrite transformChunk_short in H by assumption. discriminate. }
  repeat split; auto.
  destruct (resolve_inputs w) as [[q|e] w1] eqn:Hr; [eauto|].
  unfold transformChunk in H. apply format_checked in Ef.
  rewrite Ef, Eb in H. simpl String.length in H.
  rewrite (remove_head_ok code Hlen), Hr in H. discriminate.
Qed.

Lemma prefix_shorter (a b s : string) :
  String.prefix (a ++ b) s = true -> String.prefix a s = true.
Proof.
  revert s; induction a as [|x a IH]; intros s H; simpl.
  - destruct s; reflexivity.
  - destruct s as [|y s]; simpl in *; [discriminate|].
    destruct (ascii_dec x y); [auto | discriminate].
Qed.

Lemma startsWith_append (pre rest : string) :
  startsWith (pre ++ rest) pre = true.
Proof.
  unfold startsWith. induction pre as [|a pre IH]; simpl.
  - destruct rest; reflexivity.
  - destruct (ascii_dec a a); [exact IH | congruence].
Qed.

(* ------------------------------------------------------------------ *)
(** ** The text rewrite *)

(** C1.  A code that opens with [define(\[], output format "amd", no
    banner, entry list captured: the call returns the code with its
    leading [define(] replaced by [define("./<chunk.id>",]; everything
    from the opening bracket of the dependency array on is the original
    text. *)
Theorem define_with_array_rewritten (rest : string) o c w xs :
  format o = Some "amd" -> banner_is_set o = false ->
  inputs w = IArray xs ->
  returns_code ("define(" ++ "[" ++ rest) o c w
    ("define(" ++ dquote ++ "./" ++ Chunk.id c ++ dquote ++ "," ++ "[" ++ rest).
Proof.
  intros Hf Hb Hin.
  assert (Hlen : 7 <= String.length ("define(" ++ "[" ++ rest)) by (simpl; lia).
  pose proof (transformChunk_rewrites _ o c w xs Hf Hb Hlen Hin) as H.
  unfold rewritten in H.
  change ("define(" ++ "[" ++ rest) with ("define([" ++ rest) in H at 2.
  rewrite startsWith_append in H. exact H.
Qed.

Lemma define_with_array_rewritten_witness :
  returns_code "define(['./dep'],function(d){})" amd_output
    (Chunk.mk "foo/bar") after_options
    ("define(" ++ dquote ++ "./foo/bar" ++ dquote ++ ",['./dep'],function(d){})").
Proof.
  apply (define_with_array_rewritten "'./dep'],function(d){})" amd_output
           (Chunk.mk "foo/bar") after_options ["src/index.js"]);
    reflexivity.
Defined.

(** C2.  A code that opens with [define(] but not with [define(\[], output
    format "amd", no banner, entry list captured: the call returns
    [define("./<chunk.id>",\[\],] followed by the original text after
    [define(], so an empty array literal follows the module name. *)
Theorem define_without_array_rewritten (rest : string) o c w xs :
  startsWith ("define(" ++ rest) "define([" = false ->
  format o = Some "amd" -> banner_is_set o = false ->
  inputs w = IArray xs ->
  returns_code ("define(" ++ rest) o c w
    ("define(" ++ dquote ++ "./" ++ Chunk.id c ++ dquote ++ "," ++ "[]," ++ rest).
Proof.
  intros Hs Hf Hb Hin.
  assert (Hlen : 7 <= String.length ("define(" ++ rest)) by (simpl; lia).
  pose proof (transformChunk_rewrites _ o c w xs Hf Hb Hlen Hin) as H.
  unfold rewritten in H. rewrite Hs in H. exact H.
Qed.

Lemma define_without_array_rewritten_witness :
  returns_code "define(function(){})" amd_output (Chunk.mk "foo/bar")
    after_options
    ("define(" ++ dquote ++ "./foo/bar" ++ dquote ++ ",[],function(){})").
Proof.
  apply (define_without_array_rewritten "function(){})" amd_output
           (Chunk.mk "foo/bar") after_options ["src/index.js"]);
    reflexivity.
Defined.

(** C6.  Whenever a call returns, the module name in the text it yields
    is the chunk id prefixed with [./]. *)
Theorem module_id_is_dot_slash_chunk_id code o c w p w' :
  transformChunk code o c w = (Normal p, w') ->
  exists q f,
    nth_error (heap w') p = Some (ThenPromise q f) /\
    forall v, exists m,
      f v = PChunk ("define(" ++ dquote ++ ("./" ++ Chunk.id c) ++ dquote ++ ","
                      ++ (if startsWith code "define([" then "" else "[],")
                      ++ slice 7 code) m.
Proof.
  intros H.
  destruct (transformChunk_normal _ _ _ _ _ _ H) as (Hf & Hb & Hlen & q & w1 & Hr).
  destruct (transformChunk_returns code o c w q w1 Hf Hb Hlen Hr) as (f & Hc & Hout).
  rewrite Hc in H. injection H as <- <-. exists q, f. split.
  - simpl. rewrite nth_error_app2, Nat.sub_diag by lia. reflexivity.
  - exact Hout.
Qed.

Lemma module_id_is_dot_slash_chunk_id_witness :
  exists q f,
    nth_error (heap (snd (transformChunk "define(function(){})" amd_output
                            (Chunk.mk "foo/bar") after_options))) 2
      = Some (ThenPromise q f) /\
    forall v, exists m,
      f v = PChunk ("define(" ++ dquote ++ "./foo/bar" ++ dquote
                      ++ ",[],function(){})") m.
Proof.
  apply (module_id_is_dot_slash_chunk_id "define(function(){})" amd_output
           (Chunk.mk "foo/bar") after_options 2).
  reflexivity.
Defined.

(** C9, as amended.  A code of seven characters or more that does not
    open with [define(], output format "amd", no banner, entry list
    captured: the call raises nothing and returns
    [define("./<chunk.id>",\[\],] followed by the code without its first
    seven characters. *)
Theorem unchecked_code_rewritten code o c w xs :
  startsWith code "define(" = false ->
  7 <= String.length code ->
  format o = Some "amd" -> banner_is_set o = false ->
  inputs w = IArray xs ->
  returns_code code o c w
    ("define(" ++ dquote ++ "./" ++ Chunk.id c ++ dquote ++ "," ++ "[],"
       ++ slice 7 code).
Proof.
  intros Hs Hlen Hf Hb Hin.
  pose proof (transformChunk_rewrites code o c w xs Hf Hb Hlen Hin) as H.
  unfold rewritten in H.
  assert (Hs' : startsWith code "define([" = false).
  { unfold startsWith in *.
    destruct (String.prefix "define([" code) eqn:E; [|reflexivity].
    change "define([" with ("define(" ++ "[") in E.
    apply prefix_shorter in E. congruence. }
  rewrite Hs' in H. exact H.
Qed.

Lemma unchecked_code_rewritten_witness :
  returns_code "export default 1;" amd_output (Chunk.mk "main") after_options
    ("define(" ++ dquote ++ "./main" ++ dquote ++ ",[],default 1;").
Proof.
  apply (unchecked_code_rewritten "export default 1;" amd_output
           (Chunk.mk "main") after_options ["src/index.js"]);
    solve [reflexivity | simpl; lia].
Defined.

(** C9, as stated, fails on a code shorter than seven characters:
    [remove(0, 7)] refuses the range and the call throws. *)
Lemma short_code_is_refused :
  startsWith "abc" "define(" = false /\
  format amd_output = Some "amd" /\ banner_is_set amd_output = false /\
  inputs after_options = IArray ["src/index.js"] /\
  transformChunk "abc" amd_output (Chunk.mk "main") after_options =
    (Throw (Error "Character is out of bounds"), after_options).
Proof. repeat split. Qed.

(* ------------------------------------------------------------------ *)
(** ** The two checks *)

(** C4.  When [outputOptions.format] is not "amd" the call throws, it
    does not return a promise; the message says that output.format must
    be set to 'amd'; and the instance and the promise store are exactly
    as before, so nothing was rewritten, requested or produced. *)
Theorem wrong_format_throws code o c w :
  format o <> Some "amd" ->
  transformChunk code o c w =
    (Throw (Error "You must set output.format to 'amd'"), w).
Proof. exact (transformChunk_format code o c w). Qed.

Lemma wrong_format_throws_witness :
  transformChunk "define(function(){})"
    {| format := Some "cjs"; banner := BannerAbsent |}
    (Chunk.mk "main") after_options =
  (Throw (Error "You must set output.format to 'amd'"), after_options).
Proof.
  apply (wrong_format_throws "define(function(){})"
           {| format := Some "cjs"; banner := BannerAbsent |}
           (Chunk.mk "main") after_options).
  discriminate.
Defined.

(** C5.  When [outputOptions.banner] is a non-empty string the call
    throws whatever the format is, and leaves the instance and the
    promise store as they were; with format "amd" the error is the banner
    one. *)
Theorem banner_string_throws code o c w s :
  banner o = BannerString s -> s <> "" ->
  exists message,
    transformChunk code o c w = (Throw (Error message), w) /\
    (format o = Some "amd" -> message = banner_message).
Proof.
  intros Hb Hs.
  assert (Hset : banner_is_set o = true).
  { unfold banner_is_set. rewrite Hb. simpl.
    destruct (nonempty_truthy s Hs) as [-> ->]. reflexivity. }
  destruct (format_is_not_amd o) eqn:Ef.
  - exists format_message. split.
    + unfold transformChunk. now rewrite Ef.
    + intros Hf. apply format_checked in Hf. congruence.
  - apply format_checked in Ef. exists banner_message. split.
    + now apply transformChunk_banner.
    + reflexivity.
Qed.

Lemma banner_string_throws_witness :
  exists message,
    transformChunk "define(function(){})"
      {| format := Some "amd"; banner := BannerString "/* v1 */" |}
      (Chunk.mk "main") after_options = (Throw (Error message), after_options) /\
    (Some "amd" = Some "amd" -> message = banner_message).
Proof.
  apply (banner_string_throws "define(function(){})"
           {| format := Some "amd"; banner := BannerString "/* v1 */" |}
           (Chunk.mk "main") after_options "/* v1 */").
  - reflexivity.
  - discriminate.
Defined.

(** C10.  The format check comes first: with a format other than "amd"
    and a non-empty banner string the error is the format one; and
    whenever the banner error is raised, the format is "amd". *)
Theorem format_check_precedes_banner_check code o c w :
  (forall s, banner o = BannerString s -> s <> "" ->
     format o <> Some "amd" ->
     transformChunk code o c w =
       (Throw (Error "You must set output.format to 'amd'"), w)) /\
  (fst (transformChunk code o c w) = Throw (Error banner_message) ->
     format o = Some "amd") /\
  banner_message <> "You must set output.format to 'amd'".
Proof.
  split; [|split].
  - intros s _ _ Hf. now apply transformChunk_format.
  - intros H. destruct (format_is_not_amd o) eqn:Ef.
    + unfold transformChunk in H. rewrite Ef in H. discriminate.
    + now apply format_checked.
  - discriminate.
Qed.

Lemma format_check_precedes_banner_check_witness :
  transformChunk "define(function(){})"
    {| format := Some "es"; banner := BannerString "/* v1 */" |}
    (Chunk.mk "main") after_options =
  (Throw (Error "You must set output.format to 'amd'"), after_options).
Proof.
  apply (proj1 (format_check_precedes_banner_check "define(function(){})"
           {| format := Some "es"; banner := BannerString "/* v1 */" |}
           (Chunk.mk "main") after_options) "/* v1 */");
    [reflexivity | discriminate | discriminate].
Defined.

(* ------------------------------------------------------------------ *)
(** ** Capturing the entry list *)

Lemma no_index_keys (props : list (string * string)) :
  (forall k v, In (k, v) props -> array_index k = None) ->
  index_props props = [] /\ named_props props = map snd props.
Proof.
  induction props as [|[k v] props IH]; intros H; simpl; [auto|].
  rewrite (H k v) by (left; reflexivity).
  destruct IH as [-> ->]; [|auto].
  intros k' v' Hin. apply (H k' v'). now right.
Qed.

(** C7.  [options] stores: for a string, the one-element list holding
    it; for the mapping {a: "x.js", b: "y.js"}, the list ["x.js", "y.js"],
    and for any mapping none of whose keys is an array index, its values
    in the order the properties were created; for a list of strings, the
    same strings in the same order. *)
Theorem options_captures_entries (w : World) :
  (forall s, options (IString s) w = (Normal tt, set_inputs (IArray [s]) w)) /\
  options (IString "src/index.js") w =
    (Normal tt, set_inputs (IArray ["src/index.js"]) w) /\
  options (IObject [("a", "x.js"); ("b", "y.js")]) w =
    (Normal tt, set_inputs (IArray ["x.js"; "y.js"]) w) /\
  (forall props,
     (forall k v, In (k, v) props -> array_index k = None) ->
     options (IObject props) w = (Normal tt, set_inputs (IArray (map snd props)) w)) /\
  (forall xs, options (IArray xs) w = (Normal tt, set_inputs (IArray xs) w)).
Proof.
  repeat split.
  intros props H. unfold options; simpl.
  destruct (no_index_keys props H) as [-> ->]. reflexivity.
Qed.

Lemma options_captures_entries_witness :
  options (IObject [("main", "src/index.js"); ("worker", "src/worker.js")]) loader =
  (Normal tt, set_inputs (IArray ["src/index.js"; "src/worker.js"]) loader).
Proof.
  apply (proj1 (proj2 (proj2 (proj2 (options_captures_entries loader))))
           [("main", "src/index.js"); ("worker", "src/worker.js")]).
  intros k v [H | [H | []]]; injection H as <- _; reflexivity.
Defined.

(** A mapping with array-index keys is enumerated by ascending index
    first, not in creation order. *)
Example options_index_keys_first :
  inputs (snd (options (IObject [("b", "y.js"); ("1", "x.js"); ("0", "w.js")]) loader))
  = IArray ["w.js"; "x.js"; "y.js"].
Proof. reflexivity. Qed.

(* ------------------------------------------------------------------ *)
(** ** The shared entry resolution *)

Lemma build_inv_start xs w :
  inputs w = IArray xs -> resolvedInputs w = None -> resolveId_log w = [] ->
  build_inv xs w [].
Proof. intros Hin Hres Hlog. split; [exact Hin|]. rewrite Hres. auto. Qed.

Lemma build_inv_reached xs w evs :
  inputs w = IArray xs -> resolvedInputs w = None -> resolveId_log w = [] ->
  build_inv xs (snd (run evs w)) (returned (fst (run evs w))).
Proof.
  intros Hin Hres Hlog.
  apply (build_inv_run evs xs w [] (fst (run evs w)) (snd (run evs w))).
  - now apply build_inv_start.
  - now destruct (run evs w).
Qed.

(** C3.  Start from an instance that has captured the entry list [xs] and
    has not resolved it yet, and let calls and settlements happen in any
    number and order.  Then [this.resolveId] has been called on the
    elements of [xs], once each and in order, as soon as one call has
    returned, and not at all before; and every promise the calls have
    returned is a [then] on one and the same promise, [Promise.all] over
    the promises those [resolveId] calls returned. *)
Theorem entry_resolution_memoized xs w evs :
  inputs w = IArray xs -> resolvedInputs w = None -> resolveId_log w = [] ->
  resolveId_log (snd (run evs w)) =
    match returned (fst (run evs w)) with
    | [] => []
    | _ :: _ => xs
    end /\
  forall p, In p (returned (fst (run evs w))) ->
    exists q,
      resolvedInputs (snd (run evs w)) = Some q /\
      entry_promise xs (snd (run evs w)) q /\
      chunk_result (snd (run evs w)) q p.
Proof.
  intros Hin Hres Hlog.
  destruct (build_inv_reached xs w evs Hin Hres Hlog) as [_ Hinv].
  destruct (resolvedInputs (snd (run evs w))) as [q|].
  - destruct Hinv as (Hl & Hne & Hq & Hps). split.
    + destruct (returned (fst (run evs w))); [contradiction | exact Hl].
    + intros p Hp. exists q. rewrite Forall_forall in Hps. auto.
  - destruct Hinv as [Hl ->]. split; [exact Hl | intros p []].
Qed.

Lemma entry_resolution_memoized_witness :
  resolveId_log (snd (run two_calls after_options)) = ["src/index.js"] /\
  forall p, In p [2; 3] ->
    exists q,
      resolvedInputs (snd (run two_calls after_options)) = Some q /\
      entry_promise ["src/index.js"] (snd (run two_calls after_options)) q /\
      chunk_result (snd (run two_calls after_options)) q p.
Proof.
  exact (entry_resolution_memoized ["src/index.js"] after_options two_calls
           eq_refl eq_refl eq_refl).
Defined.

(** C8.  In the same setting, for every promise [p] a call has returned:
    while the entry promise is pending so is [p]; when [p] is fulfilled
    the entry promise was fulfilled, at that time, and [p] holds a
    [{code, map}] object; once one of the [resolveId] promises is
    rejected, [p] is rejected, whether the call that returned it came
    before or after; and once all of them are fulfilled, [p] is fulfilled
    with [{code, map}]. *)
Theorem chunk_results_follow_entry_resolution xs w evs p :
  inputs w = IArray xs -> resolvedInputs w = None -> resolveId_log w = [] ->
  In p (returned (fst (run evs w))) ->
  let w' := snd (run evs w) in
  exists q ms,
    resolvedInputs w' = Some q /\
    nth_error (heap w') q = Some (AllPromise ms) /\
    Forall2 (fun x m => exists s,
               nth_error (heap w') m = Some (HostPromise x s)) xs ms /\
    (status w' q = Pending -> status w' p = Pending) /\
    (forall t out, status w' p = Settled t (Fulfilled out) ->
       (exists v, status w' q = Settled t (Fulfilled v)) /\
       exists code m, out = PChunk code m) /\
    (forall m x t e,
       In m ms ->
       nth_error (heap w') m = Some (HostPromise x (Some (t, Rejected e))) ->
       exists t' e', status w' q = Settled t' (Rejected e') /\
                     status w' p = Settled t' (Rejected e')) /\
    ((forall m, In m ms -> exists t v, status w' m = Settled t (Fulfilled v)) ->
       exists t code m, status w' p = Settled t (Fulfilled (PChunk code m))).
Proof.
  intros Hin Hres Hlog Hp w'.
  destruct (entry_resolution_memoized xs w evs Hin Hres Hlog) as [_ H].
  destruct (H p Hp) as (q & Hq & (ms & Hall & Hlt & Hms) & Hcr).
  fold w' in Hq, Hall, Hms, Hcr.
  destruct (chunk_result_status w' q p Hcr)
    as (f & Hcell & Hf & Hpend & Hrej & Hful & Hback).
  pose proof (status_all w' q ms Hall Hlt) as Hsq.
  exists q, ms. repeat split; auto.
  - destruct (Hback t out H0) as (v & Hv & _). eauto.
  - destruct (Hback t out H0) as (v & _ & ->). apply Hf.
  - intros m x t e Hm Hcellm.
    pose proof (status_host w' m x _ Hcellm) as Hsm. simpl in Hsm.
    assert (Hi : In (Settled t (Rejected e)) (map (status w') ms)).
    { rewrite <- Hsm. now apply in_map. }
    destruct (all_status_rejected _ t e Hi) as (t' & e' & Hr).
    rewrite <- Hsq in Hr. exists t', e'. split; [exact Hr | now apply Hrej].
  - intros Hallf.
    assert (Hfa : Forall (fun s => exists t v, s = Settled t (Fulfilled v))
                    (map (status w') ms)).
    { apply Forall_forall. intros s Hs. apply in_map_iff in Hs.
      destruct Hs as (m & <- & Hm). now apply Hallf. }
    destruct (all_status_fulfilled _ Hfa) as (t & vs & Hr).
    rewrite <- Hsq in Hr. specialize (Hful t _ Hr).
    destruct (Hf (PArray vs)) as (code & m & Hfm).
    exists t, code, m. now rewrite Hful, Hfm.
Qed.

Lemma chunk_results_follow_entry_resolution_witness :
  exists t e, status (snd (run failing_build after_options)) 3
              = Settled t (Rejected e).
Proof.
  destruct (chunk_results_follow_entry_resolution ["src/index.js"]
              after_options failing_build 3 eq_refl eq_refl eq_refl
              (or_intror (or_introl eq_refl)))
    as (q & ms & Hq & Hall & _ & _ & _ & Hrej & _).
  injection Hq as <-. injection Hall as <-.
  destruct (Hrej 0 "src/index.js" 0 (Error "Could not resolve entry")
              (or_introl eq_refl) eq_refl) as (t' & e' & _ & Hp).
  exists t', e'. exact Hp.
Defined.

(* ------------------------------------------------------------------ *)
(** ** Merging the options of [loader] *)

Lemma get_set_prop {V} (k k' : string) (v : V) (o : list (string * V)) :
  get k (set_prop k' v o) = if k =? k' then Some v else get k o.
Proof.
  induction o as [|[k0 v0] o IH]; simpl.
  - reflexivity.
  - destruct (String.eqb_spec k' k0) as [->|Hne]; simpl.
    + destruct (String.eqb_spec k k0); reflexivity.
    + rewrite IH. destruct (String.eqb_spec k k0) as [->|Hne'];
        [|reflexivity].
      destruct (String.eqb_spec k0 k'); [congruence | reflexivity].
Qed.

Lemma get_none_iff {V} (k : string) (o : list (string * V)) :
  get k o = None <-> ~ In k (map fst o).
Proof.
  induction o as [|[k0 v0] o IH]; simpl.
  - tauto.
  - destruct (String.eqb_spec k k0) as [->|Hne].
    + split; [discriminate | tauto].
    + rewrite IH. split; [intros H [E|E]; [congruence | tauto] | tauto].
Qed.

Lemma get_some_iff {V} (k : string) (v : V) (o : list (string * V)) :
  NoDup (map fst o) -> (get k o = Some v <-> In (k, v) o).
Proof.
  induction o as [|[k0 v0] o IH]; simpl; intros Hnd.
  - split; [discriminate | tauto].
  - inversion Hnd as [|? ? Hnotin Hnd']; subst.
    destruct (String.eqb_spec k k0) as [->|Hne].
    + split.
      * intros [= ->]. now left.
      * intros [[= ->]|Hin]; [reflexivity|].
        exfalso. apply Hnotin. change k0 with (fst (k0, v)). now apply in_map.
    + rewrite (IH Hnd'). split; [tauto|].
      intros [[= -> ->]|Hin]; [congruence | exact Hin].
Qed.

Lemma get_permutation {V} (k : string) (o o' : list (string * V)) :
  NoDup (map fst o) -> Permutation o o' -> get k o = get k o'.
Proof.
  intros Hnd Hp.
  assert (Hnd' : NoDup (map fst o')).
  { eapply Permutation_NoDup; [|exact Hnd]. now apply Permutation_map. }
  destruct (get k o) as [v|] eqn:E.
  - symmetry. apply (get_some_iff k v o' Hnd').
    eapply Permutation_in; [exact Hp|]. now apply (get_some_iff k v o Hnd).
  - symmetry. apply get_none_iff. apply get_none_iff in E.
    intros Hin. apply E.
    eapply Permutation_in; [|exact Hin].
    apply Permutation_sym. now apply Permutation_map.
Qed.

Lemma insert_entry_permutation {V} (n : N) (kv : string * V) l :
  Permutation (map snd (insert_entry n kv l)) (kv :: map snd l).
Proof.
  induction l as [|[n' kv'] l IH]; simpl.
  - apply Permutation_refl.
  - destruct (n <? n')%N; simpl.
    + apply Permutation_refl.
    + eapply Permutation_trans; [apply perm_skip, IH | apply perm_swap].
Qed.

(** Enumeration reorders the properties, it neither drops nor repeats
    one. *)
Lemma own_entries_permutation {V} (o : list (string * V)) :
  Permutation o (own_entries o).
Proof.
  unfold own_entries. induction o as [|[k v] o IH]; simpl.
  - apply Permutation_refl.
  - destruct (array_index k) as [n|].
    + eapply Permutation_trans; [apply perm_skip, IH|].
      apply Permutation_sym.
      apply (Permutation_app_tail (named_entries o)
               (insert_entry_permutation n (k, v) (index_entries o))).
    + eapply Permutation_trans; [apply perm_skip, IH|].
      apply Permutation_middle.
Qed.

Lemma get_fold_set_prop {V} (k : string) (l : list (string * V)) :
  forall t, NoDup (map fst l) ->
  get k (fold_left (fun t kv => set_prop (fst kv) (snd kv) t) l t) =
  match get k l with
  | Some v => Some v
  | None => get k t
  end.
Proof.
  induction l as [|[k1 v1] l IH]; intros t Hnd; simpl.
  - reflexivity.
  - inversion Hnd as [|? ? Hnotin Hnd']; subst.
    rewrite (IH _ Hnd'), get_set_prop.
    destruct (String.eqb_spec k k1) as [->|Hne]; [|reflexivity].
    apply get_none_iff in Hnotin. now rewrite Hnotin.
Qed.

(** A property of the spread object is the source's where the source
    has it, else the target's. *)
Lemma get_spread {V} (k : string) (target source : list (string * V)) :
  NoDup (map fst source) ->
  get k (spread target source) =
  match get k source with
  | Some v => Some v
  | None => get k target
  end.
Proof.
  intros Hnd. unfold spread.
  pose proof (own_entries_permutation source) as Hp.
  rewrite get_fold_set_prop.
  - now rewrite <- (get_permutation k source (own_entries source) Hnd Hp).
  - eapply Permutation_NoDup; [|exact Hnd]. now apply Permutation_map.
Qed.




(** X1.  [loader(opts)] with an object: each option is the caller's
    where the caller's object has the key, even with the value
    [undefined], and the default otherwise; with nothing or [null] the
    options are the defaults. *)
Theorem loader_opts_lookup (props : list (string * OptValue)) (k : string) :
  NoDup (map fst props) ->
  get k (loader_opts (ArgObject props)) =
    match get k props with
    | Some v => Some v
    | None => get k defaultOpts
    end /\
  loader_opts ArgAbsent = defaultOpts /\ loader_opts ArgNull = defaultOpts.
Proof.
  intros Hnd. split; [|split; reflexivity].
  unfold loader_opts. now rewrite get_spread.
Qed.

Lemma loader_opts_lookup_witness :
  get "useEval" (loader_opts (ArgObject [("publicPath", OString "/static/");
                                         ("useEval", OUndefined)]))
  = Some OUndefined /\
  loader_opts ArgAbsent = defaultOpts /\ loader_opts ArgNull = defaultOpts.
Proof.
  apply (loader_opts_lookup [("publicPath", OString "/static/");
                             ("useEval", OUndefined)] "useEval").
  repeat constructor; simpl; intuition discriminate.
Defined.


(* ------------------------------------------------------------------ *)
(** ** More on capturing the entry list *)

Lemma insert_index_entry (n : N) (k v : string) l :
  insert_index n v (map (fun e => (fst e, snd (snd e))) l) =
  map (fun e => (fst e, snd (snd e))) (insert_entry n (k, v) l).
Proof.
  induction l as [|[n' [k' v']] l IH]; simpl.
  - reflexivity.
  - destruct (n <? n')%N; simpl; [reflexivity | now rewrite IH].
Qed.

Lemma index_props_entries (props : list (string * string)) :
  index_props props =
  map (fun e => (fst e, snd (snd e))) (index_entries props).
Proof.
  induction props as [|[k v] props IH]; simpl.
  - reflexivity.
  - destruct (array_index k) as [n|]; [|exact IH].
    now rewrite IH, (insert_index_entry n k v).
Qed.

Lemma named_props_entries (props : list (string * string)) :
  named_props props = map snd (named_entries props).
Proof.
  induction props as [|[k v] props IH]; simpl.
  - reflexivity.
  - destruct (array_index k); simpl; now rewrite IH.
Qed.

(** [Object.values] lists the values of the properties in enumeration
    order. *)
Lemma Object_values_own_entries (props : list (string * string)) :
  Object_values (IObject props) = Normal (map snd (own_entries props)).
Proof.
  simpl. unfold own_entries.
  rewrite index_props_entries, named_props_entries, map_app, !map_map.
  reflexivity.
Qed.


(** X4.  For a mapping, whatever its keys, the captured entry list holds
    the values of the mapping, each as often as the mapping does: the
    order may differ from the order of creation, nothing is lost or
    added. *)
Theorem options_mapping_keeps_every_value
    (props : list (string * string)) (w : World) :
  exists vs,
    options (IObject props) w = (Normal tt, set_inputs (IArray vs) w) /\
    Permutation (map snd props) vs /\
    List.length vs = List.length props.
Proof.
  exists (map snd (own_entries props)).
  assert (Hp : Permutation (map snd props) (map snd (own_entries props))).
  { apply Permutation_map, own_entries_permutation. }
  split; [|split].
  - unfold options. cbn [set_inputs inputs typeof String.eqb Ascii.eqb Bool.eqb].
    simpl typeof. cbv iota. rewrite Object_values_own_entries. reflexivity.
  - exact Hp.
  - rewrite <- (Permutation_length Hp). apply length_map.
Qed.

(* ------------------------------------------------------------------ *)
(** ** The ways a call can fail *)

Lemma resolve_inputs_throw w e w1 :
  resolve_inputs w = (Throw e, w1) ->
  e = TypeError /\ w1 = w /\ resolvedInputs w = None /\
  forall xs, inputs w <> IArray xs.
Proof.
  unfold resolve_inputs. intros H.
  destruct (resolvedInputs w) as [q|]; [discriminate|].
  destruct (inputs w) as [|s|xs|props] eqn:Hin;
    try (injection H as <- <-; repeat split; intros; discriminate).
  rewrite map_resolveId_spec in H. discriminate.
Qed.

Lemma resolve_inputs_no_entries w :
  resolvedInputs w = None -> (forall xs, inputs w <> IArray xs) ->
  resolve_inputs w = (Throw TypeError, w).
Proof.
  intros Hres Hin. unfold resolve_inputs. rewrite Hres.
  destruct (inputs w) as [|s|xs|props] eqn:E; try reflexivity.
  now destruct (Hin xs).
Qed.

(** Every way [transformChunk] throws, with what is the case then. *)
Lemma transformChunk_throw_cases code o c w e w' :
  transformChunk code o c w = (Throw e, w') ->
  w' = w /\
  ((e = Error format_message /\ format o <> Some "amd") \/
   (e = Error banner_message /\ format o = Some "amd" /\
      banner_is_set o = true) \/
   (e = Error "Character is out of bounds" /\ format o = Some "amd" /\
      banner_is_set o = false /\ String.length code < 7) \/
   (e = TypeError /\ format o = Some "amd" /\ banner_is_set o = false /\
      7 <= String.length code /\ resolvedInputs w = None /\
      forall xs, inputs w <> IArray xs)).
Proof.
  intros H.
  destruct (format_is_not_amd o) eqn:Ef.
  { unfold transformChunk in H. rewrite Ef in H. injection H as <- <-.
    split; [reflexivity|]. left. split; [reflexivity|].
    intros Hf. apply format_checked in Hf. congruence. }
  apply format_checked in Ef.
  destruct (banner_is_set o) eqn:Eb.
  { rewrite transformChunk_banner in H by assumption. injection H as <- <-.
    split; [reflexivity|]. right; left. auto. }
  destruct (le_lt_dec 7 (String.length code)) as [Hlen|Hlen].
  2:{ rewrite transformChunk_short in H by assumption. injection H as <- <-.
      split; [reflexivity|]. right; right; left. auto. }
  destruct (resolve_inputs w) as [[q|e1] w1] eqn:Hr.
  - destruct (transformChunk_returns code o c w q w1 Ef Eb Hlen Hr) as (f & Hc & _).
    rewrite Hc in H. discriminate.
  - destruct (resolve_inputs_throw w e1 w1 Hr) as (-> & -> & Hres & Hin).
    rewrite transformChunk_no_entries in H by assumption. injection H as <- <-.
    split; [reflexivity|]. right; right; right. auto 10.
Qed.

Lemma banner_is_set_iff (o : OutputOptions) :
  banner_is_set o = true <->
  (exists s, banner o = BannerString s /\ s <> "") \/
  (exists n, banner o = BannerFunction (S n)).
Proof.
  unfold banner_is_set. destruct (banner o) as [|s|n]; simpl.
  - split; [discriminate | intros [(s & H & _)|(n & H)]; discriminate].
  - destruct s as [|a s]; simpl.
    + split; [discriminate|].
      intros [(s & [= <-] & H)|(n & H)]; [congruence | discriminate].
    + split; [|reflexivity]. intros _. left. eexists; split; [reflexivity|discriminate].
  - destruct n as [|n]; simpl.
    + split; [discriminate|].
      intros [(s & H & _)|(n & H)]; discriminate.
    + split; [|reflexivity]. intros _. right. now exists n.
Qed.

(** X5.  A call that throws leaves everything as it was: no promise is
    made, nothing is requested from the host, and the next call starts
    from the same state. *)
Theorem failing_call_changes_nothing code o c w e w' :
  transformChunk code o c w = (Throw e, w') -> w' = w.
Proof. intros H. exact (proj1 (transformChunk_throw_cases _ _ _ _ _ _ H)). Qed.

Lemma failing_call_changes_nothing_witness :
  snd (transformChunk "abc" amd_output (Chunk.mk "main") after_options)
  = after_options.
Proof.
  apply (failing_call_changes_nothing "abc" amd_output (Chunk.mk "main")
           after_options (Error "Character is out of bounds")).
  reflexivity.
Defined.

(** X6.  What a call throws is one of four things, checked in this
    order: the format error when the format is not "amd"; the banner
    error when the banner check fires; 'Character is out of bounds' when
    the code has fewer than seven characters; a [TypeError] when there is
    neither an entry promise nor an entry list to make one from. *)
Theorem thrown_errors code o c w e w' :
  transformChunk code o c w = (Throw e, w') ->
  (e = Error "You must set output.format to 'amd'" /\
     format o <> Some "amd") \/
  (e = Error banner_message /\ format o = Some "amd" /\
     banner_is_set o = true) \/
  (e = Error "Character is out of bounds" /\ format o = Some "amd" /\
     banner_is_set o = false /\ String.length code < 7) \/
  (e = TypeError /\ format o = Some "amd" /\ banner_is_set o = false /\
     7 <= String.length code /\ resolvedInputs w = None /\
     forall xs, inputs w <> IArray xs).
Proof. intros H. exact (proj2 (transformChunk_throw_cases _ _ _ _ _ _ H)). Qed.

Lemma thrown_errors_witness :
  (TypeError = Error "You must set output.format to 'amd'" /\
     format amd_output <> Some "amd") \/
  (TypeError = Error banner_message /\ format amd_output = Some "amd" /\
     banner_is_set amd_output = true) \/
  (TypeError = Error "Character is out of bounds" /\
     format amd_output = Some "amd" /\
     banner_is_set amd_output = false /\
     String.length "define(function(){})" < 7) \/
  (TypeError = TypeError /\ format amd_output = Some "amd" /\
     banner_is_set amd_output = false /\
     7 <= String.length "define(function(){})" /\
     resolvedInputs loader = None /\
     forall xs, inputs loader <> IArray xs).
Proof.
  apply (thrown_errors "define(function(){})" amd_output (Chunk.mk "main")
           loader TypeError loader).
  reflexivity.
Defined.

(** X7.  The banner error is raised exactly when the format is "amd" and
    the banner is a non-empty string or a function that declares
    parameters; an absent banner, the empty string and a function
    without parameters pass the check. *)
Theorem banner_error_iff code o c w :
  transformChunk code o c w = (Throw (Error banner_message), w) <->
  format o = Some "amd" /\
  ((exists s, banner o = BannerString s /\ s <> "") \/
   (exists n, banner o = BannerFunction (S n))).
Proof.
  rewrite <- banner_is_set_iff. split.
  - intros H. destruct (transformChunk_throw_cases _ _ _ _ _ _ H)
      as [_ [(He & _)|[(_ & Hf & Hb)|[(He & _)|(He & _)]]]];
      try discriminate; auto.
  - intros [Hf Hb]. now apply transformChunk_banner.
Qed.

(** X8.  On an instance that has neither an entry promise nor an entry
    list ([options] has not run, or ran on [undefined]), a call that
    passes the checks throws a [TypeError] and changes nothing, so the
    failure is not remembered. *)
Theorem call_without_entries_throws code o c w :
  format o = Some "amd" -> banner_is_set o = false ->
  7 <= String.length code ->
  resolvedInputs w = None -> (forall xs, inputs w <> IArray xs) ->
  transformChunk code o c w = (Throw TypeError, w).
Proof.
  intros Hf Hb Hlen Hres Hin.
  apply transformChunk_no_entries; auto using resolve_inputs_no_entries.
Qed.

Lemma call_without_entries_throws_witness :
  transformChunk "define(function(){})" amd_output (Chunk.mk "main")
    (snd (options IUndefined loader))
  = (Throw TypeError, snd (options IUndefined loader)).
Proof.
  apply (call_without_entries_throws "define(function(){})" amd_output
           (Chunk.mk "main") (snd (options IUndefined loader)));
    try reflexivity; [simpl; lia | discriminate].
Defined.

(* ------------------------------------------------------------------ *)
(** ** What a returning call does to the instance *)

(** The edited text when the call returns. *)
Lemma spliced_text code c :
  MagicString.toString
    (MagicString.prepend
       ("define(" ++ dquote ++ ("./" ++ Chunk.id c) ++ dquote ++ ",")
       (if negb (startsWith code "define([")
        then MagicString.prepend "[],"
               {| MagicString.original := code; MagicString.intro := "";
                  MagicString.removed := [(0, 7)]; MagicString.outro := "" |}
        else {| MagicString.original := code; MagicString.intro := "";
                MagicString.removed := [(0, 7)]; MagicString.outro := "" |}))
  = rewritten code c.
Proof.
  unfold rewritten, startsWith.
  destruct (String.prefix "define([" code);
    unfold MagicString.toString, MagicString.prepend;
    cbn [negb MagicString.intro MagicString.removed MagicString.original
         MagicString.outro];
    rewrite surviving_prefix_removed, Nat.sub_0_r, !append_empty_r;
    rewrite ?append_assoc; cbn [append]; rewrite ?append_assoc;
    reflexivity.
Qed.

Lemma transformChunk_returns_const code o c w q w1 :
  format o = Some "amd" -> banner_is_set o = false ->
  7 <= String.length code ->
  resolve_inputs w = (Normal q, w1) ->
  exists m,
    transformChunk code o c w =
      (Normal (List.length (heap w1)),
       snd (alloc (ThenPromise q (fun _ => PChunk (rewritten code c) m)) w1)).
Proof.
  intros Hf Hb Hlen Hr. unfold transformChunk, format_is_not_amd.
  rewrite Hf, Hb. simpl String.length. rewrite (remove_head_ok code Hlen).
  rewrite Hr. cbv zeta. unfold alloc. cbn [snd negb String.eqb].
  eexists. rewrite <- (spliced_text code c). reflexivity.
Qed.

Lemma resolve_inputs_shape w q w1 :
  resolve_inputs w = (Normal q, w1) ->
  (resolvedInputs w = Some q /\ w1 = w) \/
  (resolvedInputs w = None /\ exists xs,
     inputs w = IArray xs /\
     q = List.length (heap w) + List.length xs /\
     w1 = {| inputs := inputs w; resolvedInputs := Some q;
             heap := (heap w ++ map (fun x => HostPromise x None) xs
                        ++ [AllPromise (seq (List.length (heap w))
                                            (List.length xs))])%list;
             clock := clock w;
             resolveId_log := (resolveId_log w ++ xs)%list |}).
Proof.
  unfold resolve_inputs. intros H.
  destruct (resolvedInputs w) as [q0|] eqn:Hres.
  - injection H as <- <-. now left.
  - right. split; [reflexivity|].
    destruct (inputs w) as [|s|xs|props] eqn:Hin; try discriminate.
    rewrite map_resolveId_spec in H. unfold alloc, set_resolvedInputs in H.
    simpl in H. injection H as <- <-. exists xs.
    rewrite length_app, length_map, <- app_assoc, Hin. auto.
Qed.

(** A call that returns, taken apart. *)
Lemma transformChunk_normal_inv code o c w p w' :
  transformChunk code o c w = (Normal p, w') ->
  exists q w1 m,
    resolve_inputs w = (Normal q, w1) /\
    p = List.length (heap w1) /\
    w' = snd (alloc (ThenPromise q (fun _ => PChunk (rewritten code c) m)) w1).
Proof.
  intros H.
  destruct (transformChunk_normal _ _ _ _ _ _ H) as (Hf & Hb & Hlen & q & w1 & Hr).
  destruct (transformChunk_returns_const code o c w q w1 Hf Hb Hlen Hr) as (m & Hc).
  rewrite Hc in H. injection H as <- <-. now exists q, w1, m.
Qed.

Lemma statuses_prefix h t i :
  i < List.length h ->
  nth i (statuses (h ++ t)) Pending = nth i (statuses h) Pending.
Proof.
  intros Hi. induction t as [|c t IH] using rev_ind.
  - now rewrite app_nil_r.
  - rewrite app_assoc, statuses_snoc, app_nth1; [exact IH|].
    rewrite statuses_length, length_app. lia.
Qed.

Lemma settle_cell_length p now s h :
  List.length (settle_cell p now s h) = List.length h.
Proof.
  revert p; induction h as [|c h IH]; intros p; [now destruct p|].
  destruct p as [|p]; destruct c as [x [st|]| |]; simpl; auto.
Qed.

(** What any call does to the instance: cells are added at the end of
    the store, none if the call throws. *)
Lemma transformChunk_extends code o c w res w' :
  transformChunk code o c w = (res, w') ->
  inputs w' = inputs w /\ clock w' = clock w /\
  exists t,
    heap w' = (heap w ++ t)%list /\
    match res with
    | Throw _ => t = []
    | Normal p =>
        p = List.length (heap w) + List.length t - 1 /\
        List.length t =
          match resolvedInputs w, inputs w with
          | Some _, _ => 1
          | None, IArray xs => List.length xs + 2
          | None, _ => 0
          end
    end.
Proof.
  intros H. destruct res as [p|e].
  - destruct (transformChunk_normal_inv _ _ _ _ _ _ H) as (q & w1 & m & Hr & -> & ->).
    destruct (resolve_inputs_shape w q w1 Hr) as [[Hres ->]|(Hres & xs & Hin & Hq & ->)].
    + simpl. repeat split. eexists. split; [reflexivity|]. rewrite Hres.
      simpl. split; [lia | reflexivity].
    + simpl. repeat split. rewrite Hres, Hin.
      eexists. rewrite <- !app_assoc. split; [reflexivity|].
      rewrite !length_app, length_map. simpl. split; lia.
  - destruct (transformChunk_throw_cases _ _ _ _ _ _ H) as [-> _].
    repeat split. exists []. now rewrite app_nil_r.
Qed.

(** X9.  A call that returns leaves the entry list and the clock alone
    and only adds promises: one when the entry promise exists, and
    otherwise one per entry, the entry promise and the one returned; the
    promise returned is the last one added; and no promise that existed
    changes its state. *)
Theorem returning_call_only_adds_promises code o c w p w' :
  transformChunk code o c w = (Normal p, w') ->
  inputs w' = inputs w /\ clock w' = clock w /\
  (exists t,
     heap w' = (heap w ++ t)%list /\
     p = List.length (heap w) + List.length t - 1 /\
     List.length t =
       match resolvedInputs w, inputs w with
       | Some _, _ => 1
       | None, IArray xs => List.length xs + 2
       | None, _ => 0
       end) /\
  forall i, i < List.length (heap w) -> status w' i = status w i.
Proof.
  intros H.
  destruct (transformChunk_extends _ _ _ _ _ _ H) as (Hi & Hc & t & Ht & Hp & Hl).
  repeat split; auto.
  - exists t. auto.
  - intros i Hlt. unfold status. rewrite Ht. now apply statuses_prefix.
Qed.

Lemma returning_call_only_adds_promises_witness :
  inputs (snd (transformChunk "define(function(){})" amd_output
                 (Chunk.mk "main") after_options)) = inputs after_options /\
  clock (snd (transformChunk "define(function(){})" amd_output
                (Chunk.mk "main") after_options)) = clock after_options /\
  (exists t,
     heap (snd (transformChunk "define(function(){})" amd_output
                  (Chunk.mk "main") after_options))
       = (heap after_options ++ t)%list /\
     2 = List.length (heap after_options) + List.length t - 1 /\
     List.length t = 3) /\
  forall i, i < List.length (heap after_options) ->
    status (snd (transformChunk "define(function(){})" amd_output
                   (Chunk.mk "main") after_options)) i
    = status after_options i.
Proof.
  apply (returning_call_only_adds_promises "define(function(){})" amd_output
           (Chunk.mk "main") after_options 2).
  reflexivity.
Defined.

(** X10.  The callback of the promise a call returns ignores the value
    it is given: the [{code, map}] object does not depend on what the
    host resolved the entries to. *)
Theorem result_ignores_resolved_ids code o c w p w' :
  transformChunk code o c w = (Normal p, w') ->
  exists q f,
    nth_error (heap w') p = Some (ThenPromise q f) /\
    forall v v', f v = f v'.
Proof.
  intros H.
  destruct (transformChunk_normal_inv _ _ _ _ _ _ H) as (q & w1 & m & Hr & -> & ->).
  exists q, (fun _ => PChunk (rewritten code c) m). split; [|reflexivity].
  simpl. rewrite nth_error_app2, Nat.sub_diag by lia. reflexivity.
Qed.

Lemma result_ignores_resolved_ids_witness :
  exists q f,
    nth_error (heap (snd (transformChunk "define(function(){})" amd_output
                            (Chunk.mk "main") after_options))) 2
      = Some (ThenPromise q f) /\
    forall v v', f v = f v'.
Proof.
  apply (result_ignores_resolved_ids "define(function(){})" amd_output
           (Chunk.mk "main") after_options 2).
  reflexivity.
Defined.

Lemma string_length_append (a b : string) :
  String.length (a ++ b) = String.length a + String.length b.
Proof. induction a as [|x a IH]; simpl; [reflexivity | now rewrite IH]. Qed.

Lemma slice_length (n : nat) : forall s,
  String.length (slice n s) = String.length s - n.
Proof.
  induction n as [|n IH]; intros s; simpl.
  - lia.
  - destruct s as [|x s]; simpl; [reflexivity | apply IH].
Qed.

(** X11.  The text a call yields is longer than the code it was given by
    the length of the chunk id plus 5 when the code opens with
    [define(\[], and plus 8 otherwise. *)
Theorem rewritten_text_length code o c w p w' :
  transformChunk code o c w = (Normal p, w') ->
  exists q f,
    nth_error (heap w') p = Some (ThenPromise q f) /\
    forall v, exists out m,
      f v = PChunk out m /\
      String.length out =
        String.length code + String.length (Chunk.id c)
          + (if startsWith code "define([" then 5 else 8).
Proof.
  intros H.
  destruct (transformChunk_normal _ _ _ _ _ _ H) as (_ & _ & Hlen & _).
  destruct (transformChunk_normal_inv _ _ _ _ _ _ H) as (q & w1 & m & Hr & -> & ->).
  exists q, (fun _ => PChunk (rewritten code c) m). split.
  - simpl. rewrite nth_error_app2, Nat.sub_diag by lia. reflexivity.
  - intros _. exists (rewritten code c), m. split; [reflexivity|].
    unfold rewritten. rewrite !string_length_append, slice_length.
    destruct (startsWith code "define(["); simpl; lia.
Qed.

Lemma rewritten_text_length_witness :
  exists q f,
    nth_error (heap (snd (transformChunk "define(function(){})" amd_output
                            (Chunk.mk "main") after_options))) 2
      = Some (ThenPromise q f) /\
    forall v, exists out m,
      f v = PChunk out m /\
      String.length out = 20 + 4 + 8.
Proof.
  apply (rewritten_text_length "define(function(){})" amd_output
           (Chunk.mk "main") after_options 2).
  reflexivity.
Defined.

(** X12.  A code without a dependency array and the same code with an
    explicit empty one are rewritten to the same text. *)
Theorem empty_array_made_explicit (rest : string) o c w xs :
  startsWith ("define(" ++ rest) "define([" = false ->
  format o = Some "amd" -> banner_is_set o = false ->
  inputs w = IArray xs ->
  returns_code ("define(" ++ rest) o c w
    ("define(" ++ dquote ++ "./" ++ Chunk.id c ++ dquote ++ "," ++ "[]," ++ rest) /\
  returns_code ("define(" ++ "[]," ++ rest) o c w
    ("define(" ++ dquote ++ "./" ++ Chunk.id c ++ dquote ++ "," ++ "[]," ++ rest).
Proof.
  intros Hs Hf Hb Hin. split.
  - assert (Hlen : 7 <= String.length ("define(" ++ rest)) by (simpl; lia).
    pose proof (transformChunk_rewrites _ o c w xs Hf Hb Hlen Hin) as H.
    unfold rewritten in H. rewrite Hs in H. exact H.
  - assert (Hlen : 7 <= String.length ("define(" ++ "[]," ++ rest)) by (simpl; lia).
    pose proof (transformChunk_rewrites _ o c w xs Hf Hb Hlen Hin) as H.
    unfold rewritten in H.
    change ("define(" ++ "[]," ++ rest) with ("define([" ++ "]," ++ rest) in H at 2.
    rewrite startsWith_append in H. exact H.
Qed.

Lemma empty_array_made_explicit_witness :
  returns_code "define(function(){})" amd_output (Chunk.mk "m") after_options
    ("define(" ++ dquote ++ "./m" ++ dquote ++ ",[],function(){})") /\
  returns_code "define([],function(){})" amd_output (Chunk.mk "m") after_options
    ("define(" ++ dquote ++ "./m" ++ dquote ++ ",[],function(){})").
Proof.
  apply (empty_array_made_explicit "function(){})" amd_output (Chunk.mk "m")
           after_options ["src/index.js"]); reflexivity.
Defined.

(* ------------------------------------------------------------------ *)
(** ** More on the promises of a build *)

Lemma returned_promise_fresh code o c w p w' :
  transformChunk code o c w = (Normal p, w') ->
  List.length (heap w) <= p /\ List.length (heap w') = S p.
Proof.
  intros H.
  destruct (transformChunk_normal_inv _ _ _ _ _ _ H) as (q & w1 & m & Hr & -> & ->).
  simpl. rewrite length_app. simpl. split; [|lia].
  destruct (resolve_inputs_shape w q w1 Hr) as [[_ ->]|(_ & xs & _ & _ & ->)].
  - lia.
  - simpl. rewrite length_app. lia.
Qed.

Lemma run_returns_fresh evs : forall w,
  List.length (heap w) <= List.length (heap (snd (run evs w))) /\
  Forall (fun p => List.length (heap w) <= p < List.length (heap (snd (run evs w))))
         (returned (fst (run evs w))) /\
  NoDup (returned (fst (run evs w))).
Proof.
  induction evs as [|ev evs IH]; intros w; simpl.
  - repeat split; constructor.
  - destruct ev as [code o c | p s].
    + destruct (transformChunk code o c w) as [res w1] eqn:Hc.
      specialize (IH w1). destruct (run evs w1) as [rs w2]. simpl in *.
      destruct IH as (Hle & Hall & Hnd).
      destruct (transformChunk_extends _ _ _ _ _ _ Hc) as (_ & _ & t & Ht & _).
      assert (Hle1 : List.length (heap w) <= List.length (heap w1)).
      { rewrite Ht, length_app. lia. }
      assert (Hall' : Forall (fun p => List.length (heap w) <= p
                                       < List.length (heap w2)) (returned rs)).
      { eapply Forall_impl; [|exact Hall]. simpl. intros; lia. }
      destruct res as [p|e]; simpl.
      * destruct (returned_promise_fresh _ _ _ _ _ _ Hc) as [Hp1 Hp2].
        split; [lia|]. split.
        -- constructor; [lia | exact Hall'].
        -- constructor; [|exact Hnd]. intros Hin.
           rewrite Forall_forall in Hall. specialize (Hall p Hin). lia.
      * split; [lia|]. split; assumption.
    + specialize (IH (host_settle p s w)). simpl in IH.
      rewrite settle_cell_length in IH. exact IH.
Qed.

(** X13.  Over any run of calls and settlements, every call that
    returns, returns a promise that did not exist when the run started
    and that no other call of the run returns. *)
Theorem calls_return_distinct_promises (evs : list Event) (w : World) :
  NoDup (returned (fst (run evs w))) /\
  Forall (fun p => List.length (heap w) <= p) (returned (fst (run evs w))).
Proof.
  destruct (run_returns_fresh evs w) as (_ & Hall & Hnd).
  split; [exact Hnd|]. eapply Forall_impl; [|exact Hall]. simpl. intros; lia.
Qed.

Lemma act_keeps_resolution a w q :
  resolvedInputs w = Some q ->
  resolvedInputs (act a w) = Some q /\
  resolveId_log (act a w) = resolveId_log w.
Proof.
  intros Hres. destruct a as [input | [code o c | p s]]; simpl.
  - destruct input; simpl; auto.
  - destruct (transformChunk code o c w) as [[p|e] w'] eqn:Hc; simpl.
    + destruct (transformChunk_normal_inv _ _ _ _ _ _ Hc) as (q' & w1 & m & Hr & _ & ->).
      destruct (resolve_inputs_shape w q' w1 Hr) as [[Hq ->]|(Hn & _)];
        [simpl; auto | congruence].
    + destruct (transformChunk_throw_cases _ _ _ _ _ _ Hc) as [-> _]. auto.
  - auto.
Qed.

(** X14.  Once the entry promise exists it stays: whatever follows on the
    instance, calls, settlements, or [options] capturing another entry
    list, [resolvedInputs] is the same promise and [this.resolveId] is
    not called again, so entries captured later are never resolved. *)
Theorem resolution_never_redone (acts : list Action) (w : World) q :
  resolvedInputs w = Some q ->
  resolvedInputs (run_actions acts w) = Some q /\
  resolveId_log (run_actions acts w) = resolveId_log w.
Proof.
  revert w. unfold run_actions.
  induction acts as [|a acts IH]; intros w Hres; simpl; [auto|].
  destruct (act_keeps_resolution a w q Hres) as [Hres' Hlog'].
  destruct (IH (act a w) Hres') as [H1 H2]. split; [exact H1 | congruence].
Qed.

Lemma resolution_never_redone_witness :
  resolvedInputs
    (run_actions [ Capture (IString "src/other.js");
                   Host (Call "define(function(){})" amd_output (Chunk.mk "c")) ]
       (snd (run two_calls after_options))) = Some 1 /\
  resolveId_log
    (run_actions [ Capture (IString "src/other.js");
                   Host (Call "define(function(){})" amd_output (Chunk.mk "c")) ]
       (snd (run two_calls after_options))) = ["src/index.js"].
Proof.
  apply (resolution_never_redone
           [ Capture (IString "src/other.js");
             Host (Call "define(function(){})" amd_output (Chunk.mk "c")) ]
           (snd (run two_calls after_options)) 1).
  reflexivity.
Defined.

Lemma returned_has_entry_promise xs w evs p :
  inputs w = IArray xs -> resolvedInputs w = None -> resolveId_log w = [] ->
  In p (returned (fst (run evs w))) ->
  exists q,
    resolvedInputs (snd (run evs w)) = Some q /\
    resolveId_log (snd (run evs w)) = xs /\
    entry_promise xs (snd (run evs w)) q /\
    chunk_result (snd (run evs w)) q p.
Proof.
  intros Hin Hres Hlog Hp.
  destruct (build_inv_reached xs w evs Hin Hres Hlog) as [_ Hinv].
  destruct (resolvedInputs (snd (run evs w))) as [q|].
  - destruct Hinv as (Hl & _ & Hq & Hps). exists q.
    rewrite Forall_forall in Hps. auto.
  - destruct Hinv as [_ Hnil]. rewrite Hnil in Hp. destruct Hp.
Qed.

(** X15.  With an empty entry list (an empty array or an empty mapping)
    [this.resolveId] is never called and every promise a call returns is
    fulfilled with its [{code, map}] at once, without the host settling
    anything. *)
Theorem empty_entry_list_resolves_at_once w evs p :
  inputs w = IArray [] -> resolvedInputs w = None -> resolveId_log w = [] ->
  In p (returned (fst (run evs w))) ->
  resolveId_log (snd (run evs w)) = [] /\
  exists code m,
    status (snd (run evs w)) p = Settled 0 (Fulfilled (PChunk code m)).
Proof.
  intros Hin Hres Hlog Hp.
  destruct (returned_has_entry_promise [] w evs p Hin Hres Hlog Hp)
    as (q & Hq & Hl & (ms & Hall & Hlt & Hms) & Hcr).
  split; [exact Hl|].
  inversion Hms; subst.
  pose proof (status_all _ q [] Hall Hlt) as Hsq. simpl in Hsq.
  destruct (chunk_result_status _ q p Hcr) as (f & _ & Hf & _ & _ & Hful & _).
  destruct (Hf (PArray [])) as (code & m & Hfm).
  exists code, m. rewrite (Hful 0 _ Hsq), Hfm. reflexivity.
Qed.

Lemma empty_entry_list_resolves_at_once_witness :
  resolveId_log (snd (run two_calls (snd (options (IObject []) loader)))) = [] /\
  exists code m,
    status (snd (run two_calls (snd (options (IObject []) loader)))) 2
    = Settled 0 (Fulfilled (PChunk code m)).
Proof.
  apply (empty_entry_list_resolves_at_once
           (snd (options (IObject []) loader)) two_calls 2);
    try reflexivity.
  right. left. reflexivity.
Defined.

Lemma all_status_values ss vs :
  Forall2 (fun s v => exists t, s = Settled t (Fulfilled v)) ss vs ->
  exists t, all_status ss = Settled t (Fulfilled (PArray vs)).
Proof.
  intros H.
  assert (Hr : first_rejection ss = None /\
               exists t, all_fulfilled ss = Some (t, vs)).
  { induction H as [|s v ss vs [t ->] _ [IH1 [t' IH2]]]; simpl.
    - eauto.
    - rewrite IH1, IH2. eauto. }
  destruct Hr as [Hr [t Hf]]. exists t. unfold all_status. now rewrite Hr, Hf.
Qed.

Lemma all_status_pending ss :
  In Pending ss ->
  (forall t e, ~ In (Settled t (Rejected e)) ss) ->
  all_status ss = Pending.
Proof.
  intros Hp Hn.
  assert (Hr : first_rejection ss = None).
  { clear Hp. induction ss as [|s ss IH]; [reflexivity|].
    destruct s as [|t [v|e]]; simpl.
    - apply IH. intros t e H. apply (Hn t e). now right.
    - apply IH. intros t' e H. apply (Hn t' e). now right.
    - exfalso. apply (Hn t e). now left. }
  assert (Hf : all_fulfilled ss = None).
  { clear Hn Hr. induction ss as [|s ss IH]; [destruct Hp|].
    destruct Hp as [->|Hp]; [reflexivity|].
    destruct s as [|t [v|e]]; simpl; try reflexivity. now rewrite (IH Hp). }
  unfold all_status. now rewrite Hr, Hf.
Qed.

(** X16.  The entry promise is [Promise.all] over one host promise per
    entry, in the order of the entry list; when the host has fulfilled
    them, in whatever order, the entry promise is fulfilled with the
    array of their values in the order of the entry list. *)
Theorem resolved_ids_keep_entry_order xs w evs q ms vs :
  inputs w = IArray xs -> resolvedInputs w = None -> resolveId_log w = [] ->
  resolvedInputs (snd (run evs w)) = Some q ->
  nth_error (heap (snd (run evs w))) q = Some (AllPromise ms) ->
  Forall2 (fun m v => exists t,
             status (snd (run evs w)) m = Settled t (Fulfilled v)) ms vs ->
  Forall2 (fun x m => exists s,
             nth_error (heap (snd (run evs w))) m = Some (HostPromise x s))
          xs ms /\
  exists t, status (snd (run evs w)) q = Settled t (Fulfilled (PArray vs)).
Proof.
  intros Hin Hres Hlog Hq Hcell Hvs.
  destruct (build_inv_reached xs w evs Hin Hres Hlog) as [_ Hinv].
  rewrite Hq in Hinv. destruct Hinv as (_ & _ & (ms' & Hall & Hlt & Hms) & _).
  assert (ms' = ms) by congruence. subst ms'.
  split; [exact Hms|].
  rewrite (status_all _ q ms Hall Hlt). apply all_status_values.
  clear -Hvs. induction Hvs; simpl; constructor; auto.
Qed.

(** A build with two entries whose second entry the host resolves
    first. *)
Lemma resolved_ids_keep_entry_order_witness :
  Forall2 (fun x m => exists s,
             nth_error
               (heap (snd (run [ Call "define(function(){})" amd_output (Chunk.mk "a");
                                 Settle 1 (Fulfilled (PModuleId (Some "/src/b.js")));
                                 Settle 0 (Fulfilled (PModuleId (Some "/src/a.js"))) ]
                             (snd (options (IArray ["a.js"; "b.js"]) loader))))) m
             = Some (HostPromise x s))
          ["a.js"; "b.js"] [0; 1] /\
  exists t,
    status (snd (run [ Call "define(function(){})" amd_output (Chunk.mk "a");
                       Settle 1 (Fulfilled (PModuleId (Some "/src/b.js")));
                       Settle 0 (Fulfilled (PModuleId (Some "/src/a.js"))) ]
                   (snd (options (IArray ["a.js"; "b.js"]) loader)))) 2
    = Settled t (Fulfilled (PArray [PModuleId (Some "/src/a.js");
                                    PModuleId (Some "/src/b.js")])).
Proof.
  apply (resolved_ids_keep_entry_order ["a.js"; "b.js"]
           (snd (options (IArray ["a.js"; "b.js"]) loader))
           [ Call "define(function(){})" amd_output (Chunk.mk "a");
             Settle 1 (Fulfilled (PModuleId (Some "/src/b.js")));
             Settle 0 (Fulfilled (PModuleId (Some "/src/a.js"))) ]
           2 [0; 1]); try reflexivity.
  constructor; [exists 1; reflexivity|].
  constructor; [exists 0; reflexivity|]. constructor.
Defined.

(** X17.  As long as the host has rejected none of the [resolveId]
    promises and one of them is still pending, every promise a call has
    returned is pending: no output comes out of a partly resolved entry
    list. *)
Theorem partly_resolved_is_pending xs w evs p q ms :
  inputs w = IArray xs -> resolvedInputs w = None -> resolveId_log w = [] ->
  In p (returned (fst (run evs w))) ->
  resolvedInputs (snd (run evs w)) = Some q ->
  nth_error (heap (snd (run evs w))) q = Some (AllPromise ms) ->
  (exists m, In m ms /\ status (snd (run evs w)) m = Pending) ->
  (forall m t e, In m ms ->
     status (snd (run evs w)) m <> Settled t (Rejected e)) ->
  status (snd (run evs w)) p = Pending.
Proof.
  intros Hin Hres Hlog Hp Hq Hcell (m & Hm & Hpend) Hnr.
  destruct (returned_has_entry_promise xs w evs p Hin Hres Hlog Hp)
    as (q' & Hq' & _ & (ms' & Hall & Hlt & _) & Hcr).
  assert (q' = q) by congruence. subst q'.
  assert (ms' = ms) by congruence. subst ms'.
  destruct (chunk_result_status _ q p Hcr) as (f & _ & _ & Hpq & _).
  apply Hpq. rewrite (status_all _ q ms Hall Hlt).
  apply all_status_pending.
  - rewrite <- Hpend. now apply in_map.
  - intros t e Hi. apply in_map_iff in Hi. destruct Hi as (m' & Hs & Hm').
    exact (Hnr m' t e Hm' Hs).
Qed.

Lemma partly_resolved_is_pending_witness :
  status (snd (run [ Call "define(function(){})" amd_output (Chunk.mk "a");
                     Settle 1 (Fulfilled (PModuleId (Some "/src/b.js"))) ]
                 (snd (options (IArray ["a.js"; "b.js"]) loader)))) 3
  = Pending.
Proof.
  apply (partly_resolved_is_pending ["a.js"; "b.js"]
           (snd (options (IArray ["a.js"; "b.js"]) loader))
           [ Call "define(function(){})" amd_output (Chunk.mk "a");
             Settle 1 (Fulfilled (PModuleId (Some "/src/b.js"))) ]
           3 2 [0; 1]); try reflexivity.
  - left. reflexivity.
  - exists 0. split; [left; reflexivity | reflexivity].
  - intros m t e [<-|[<-|[]]]; discriminate.
Defined.

(* ------------------------------------------------------------------ *)
(** ** A settled result is final *)

Lemma first_rejection_in ss t e :
  first_rejection ss = Some (t, e) -> In (Settled t (Rejected e)) ss.
Proof.
  revert t e; induction ss as [|s ss IH]; intros t e H; [discriminate|].
  destruct s as [|t0 [v|e0]]; simpl in H; try (right; now apply IH).
  destruct (first_rejection ss) as [[t' e']|].
  - destruct (t' <? t0)%nat; injection H as <- <-; [right; now apply IH | now left].
  - injection H as <- <-. now left.
Qed.

Lemma first_rejection_later_none T ss ss' :
  Forall2 (later T) ss ss' ->
  first_rejection ss = None ->
  first_rejection ss' = None \/
  exists t e, first_rejection ss' = Some (t, e) /\ T <= t.
Proof.
  induction 1 as [|s s' ss ss' Hl _ IH]; intros Hn; [now left|].
  assert (Hn' : first_rejection ss = None).
  { destruct s as [|t0 [v|e0]]; simpl in Hn; auto.
    destruct (first_rejection ss) as [[t' e']|]; [|discriminate].
    destruct (t' <? t0)%nat; discriminate. }
  specialize (IH Hn').
  destruct Hl as [->|(-> & r & ->)].
  - destruct s as [|t0 [v|e0]]; simpl; auto.
    simpl in Hn. destruct (first_rejection ss) as [[t' e']|]; [|discriminate].
    destruct (t' <? t0)%nat; discriminate.
  - destruct r as [v|e0]; simpl; [exact IH|]. right.
    destruct IH as [->|(t & e & -> & Hle)].
    + exists T, e0. auto.
    + destruct (Nat.ltb_spec t T); [lia|]. exists T, e0. auto.
Qed.

Lemma first_rejection_stable T ss ss' t e :
  Forall (before T) ss -> Forall2 (later T) ss ss' ->
  first_rejection ss = Some (t, e) ->
  first_rejection ss' = Some (t, e).
Proof.
  intros Hb Hl. revert t e Hb.
  induction Hl as [|s s' ss ss' Hs Hl IH]; intros t e Hb H; [discriminate|].
  inversion Hb as [|? ? Hbs Hbss]; subst.
  destruct Hs as [->|(-> & r & ->)].
  - destruct s as [|t0 [v|e0]]; simpl in *; auto.
    destruct (first_rejection ss) as [[t' e']|] eqn:E.
    + now rewrite (IH t' e' Hbss eq_refl).
    + destruct (first_rejection_later_none T ss ss' Hl E)
        as [->|(t1 & e1 & -> & Hle)]; [exact H|].
      specialize (Hbs t0 _ eq_refl).
      destruct (Nat.ltb_spec t1 t0); [lia | exact H].
  - simpl in H. pose proof (IH t e Hbss H) as H'.
    destruct r as [v|e0]; simpl; [exact H'|]. rewrite H'.
    assert (Ht : t < T).
    { apply first_rejection_in in H. rewrite Forall_forall in Hbss.
      exact (Hbss _ H t _ eq_refl). }
    destruct (Nat.ltb_spec t T); [reflexivity | lia].
Qed.

Lemma all_fulfilled_stable T ss ss' x :
  Forall2 (later T) ss ss' -> all_fulfilled ss = Some x -> ss' = ss.
Proof.
  intros Hl. revert x. induction Hl as [|s s' ss ss' Hs _ IH]; intros x H;
    [reflexivity|].
  destruct s as [|t [v|e]]; simpl in H; try discriminate.
  destruct (all_fulfilled ss) as [[t' vs]|] eqn:E; [|discriminate].
  rewrite (IH _ eq_refl).
  destruct Hs as [->|(Hp & _)]; [reflexivity | discriminate].
Qed.

(** [Promise.all], once settled, is not affected by later settlements
    of its members. *)
Lemma all_status_stable T ss ss' t r :
  Forall (before T) ss -> Forall2 (later T) ss ss' ->
  all_status ss = Settled t r -> all_status ss' = Settled t r.
Proof.
  intros Hb Hl H. unfold all_status in *.
  destruct (first_rejection ss) as [[t0 e0]|] eqn:E.
  - now rewrite (first_rejection_stable T ss ss' t0 e0 Hb Hl E).
  - destruct (all_fulfilled ss) as [[t1 vs]|] eqn:F; [|discriminate].
    rewrite (all_fulfilled_stable T ss ss' _ Hl F). now rewrite E, F.
Qed.

Lemma settle_cell_host p now s h : forall i x st,
  nth_error h i = Some (HostPromise x st) ->
  nth_error (settle_cell p now s h) i = Some (HostPromise x st) \/
  (st = None /\
   nth_error (settle_cell p now s h) i = Some (HostPromise x (Some (now, s)))).
Proof.
  revert p; induction h as [|c h IH]; intros p i x st H.
  - destruct i; discriminate.
  - destruct p as [|p]; destruct i as [|i]; simpl in H.
    + injection H as ->. destruct st as [st|]; simpl; auto.
    + left. destruct c as [y [st'|]| |]; exact H.
    + left. injection H as ->. destruct st; reflexivity.
    + destruct (IH p i x st H) as [H'|[-> H']]; [left | right; split; auto];
        destruct c as [y [st'|]| |]; exact H'.
Qed.

Lemma settle_cell_in p now s h c :
  In c (settle_cell p now s h) ->
  In c h \/ exists x, c = HostPromise x (Some (now, s)).
Proof.
  revert p; induction h as [|c0 h IH]; intros p H.
  - destruct p; destruct H.
  - destruct p as [|p].
    + destruct c0 as [y [st'|]| |]; simpl in H; auto.
      destruct H as [<-|H]; [right; eauto | left; now right].
    + assert (H' : c0 = c \/ In c (settle_cell p now s h)).
      { destruct c0 as [y [st'|]| |]; exact H. }
      destruct H' as [->|H']; [left; now left|].
      destruct (IH p H') as [Hin|Hx]; [left; now right | now right].
Qed.

Lemma times_in_past_settle p s w :
  times_in_past w -> times_in_past (host_settle p s w).
Proof.
  intros Ht x t s' Hin. simpl in *.
  destruct (settle_cell_in _ _ _ _ _ Hin) as [Hold|[y [= -> ->]]].
  - specialize (Ht x t s' Hold). lia.
  - lia.
Qed.

Lemma times_in_past_call code o c w res w' :
  times_in_past w -> transformChunk code o c w = (res, w') ->
  times_in_past w'.
Proof.
  intros Ht H. destruct res as [p|e].
  - destruct (transformChunk_normal_inv _ _ _ _ _ _ H) as (q & w1 & m & Hr & _ & ->).
    destruct (resolve_inputs_shape w q w1 Hr) as [[_ ->]|(_ & xs & _ & _ & ->)];
      intros x t s Hin; simpl in Hin; repeat (apply in_app_or in Hin; destruct Hin as [Hin|Hin]);
      try (exact (Ht x t s Hin));
      try (destruct Hin as [Hin|[]]; discriminate).
    apply in_map_iff in Hin. destruct Hin as (y & Hy & _). discriminate.
  - destruct (transformChunk_throw_cases _ _ _ _ _ _ H) as [-> _]. exact Ht.
Qed.

Lemma times_in_past_run evs : forall w,
  times_in_past w -> times_in_past (snd (run evs w)).
Proof.
  induction evs as [|ev evs IH]; intros w Ht; simpl; [exact Ht|].
  destruct ev as [code o c | p s].
  - destruct (transformChunk code o c w) as [res w1] eqn:Hc.
    specialize (IH w1 (times_in_past_call _ _ _ _ _ _ Ht Hc)).
    now destruct (run evs w1).
  - apply IH. now apply times_in_past_settle.
Qed.

Lemma run_app_snd evs1 evs2 : forall w,
  snd (run (evs1 ++ evs2) w) = snd (run evs2 (snd (run evs1 w))).
Proof.
  induction evs1 as [|ev evs1 IH]; intros w; simpl; [reflexivity|].
  destruct ev as [code o c | p s].
  - destruct (transformChunk code o c w) as [res w1].
    specialize (IH w1).
    destruct (run (evs1 ++ evs2) w1), (run evs1 w1). exact IH.
  - apply IH.
Qed.

(** One settlement by the host leaves a settled chunk result as it is. *)
Lemma settled_stays_settle xs w ps p0 s0 p t s :
  build_inv xs w ps -> times_in_past w -> In p ps ->
  status w p = Settled t s ->
  status (host_settle p0 s0 w) p = Settled t s.
Proof.
  intros [_ Hinv] Ht Hp Hs.
  destruct (resolvedInputs w) as [q|]; [|destruct Hinv as [_ ->]; destruct Hp].
  destruct Hinv as (_ & _ & Hq & Hps).
  rewrite Forall_forall in Hps. destruct (Hps p Hp) as (f & Hcell & Hlt & _).
  pose proof (evolves_settle p0 (clock w) s0 (heap w)) as Hev.
  pose proof (Hev p _ Hcell) as Hcell'. simpl in Hcell'.
  rewrite (status_then w p q f Hcell Hlt) in Hs.
  rewrite (status_then (host_settle p0 s0 w) p q f Hcell' Hlt).
  destruct Hq as (ms & Hall & Hmlt & Hms).
  pose proof (Hev q _ Hall) as Hall'. simpl in Hall'.
  rewrite (status_all w q ms Hall Hmlt) in Hs.
  rewrite (status_all (host_settle p0 s0 w) q ms Hall' Hmlt).
  assert (Hrel : Forall (before (clock w)) (map (status w) ms) /\
                 Forall2 (later (clock w)) (map (status w) ms)
                         (map (status (host_settle p0 s0 w)) ms)).
  { clear -Hms Ht. induction Hms as [|x m xs ms [st Hm] _ [IH1 IH2]]; simpl.
    - split; constructor.
    - split; constructor; auto.
      + rewrite (status_host w m x st Hm). intros t r E.
        destruct st as [[t0 r0]|]; [|discriminate]. injection E as <- <-.
        apply (Ht x t0 r0). eapply nth_error_In. exact Hm.
      + rewrite (status_host w m x st Hm).
        destruct (settle_cell_host p0 (clock w) s0 (heap w) m x st Hm)
          as [H'|[-> H']].
        * left. now rewrite (status_host (host_settle p0 s0 w) m x st H').
        * right. split; [reflexivity|]. exists s0.
          now rewrite (status_host (host_settle p0 s0 w) m x _ H'). }
  destruct Hrel as [Hb Hl].
  destruct (all_status (map (status w) ms)) as [|tq rq] eqn:E; [discriminate|].
  now rewrite (all_status_stable (clock w) _ _ tq rq Hb Hl E).
Qed.

Lemma settled_stays evs : forall xs w ps p t s,
  build_inv xs w ps -> times_in_past w -> In p ps ->
  status w p = Settled t s ->
  status (snd (run evs w)) p = Settled t s.
Proof.
  induction evs as [|ev evs IH]; intros xs w ps p t s Hinv Ht Hp Hs; simpl;
    [exact Hs|].
  destruct ev as [code o c | p0 s0].
  - destruct (transformChunk code o c w) as [res w1] eqn:Hc.
    destruct (build_inv_call _ _ _ _ _ _ _ _ Hinv Hc) as [Hinv1 _].
    pose proof (times_in_past_call _ _ _ _ _ _ Ht Hc) as Ht1.
    assert (Hs1 : status w1 p = Settled t s).
    { destruct (transformChunk_extends _ _ _ _ _ _ Hc) as (_ & _ & tl & Htl & _).
      unfold status in *. rewrite Htl, statuses_prefix; [exact Hs|].
      destruct Hinv as [_ Hinv]. destruct (resolvedInputs w) as [q|];
        [|destruct Hinv as [_ ->]; destruct Hp].
      destruct Hinv as (_ & _ & _ & Hps). rewrite Forall_forall in Hps.
      destruct (Hps p Hp) as (f & Hcell & _). apply nth_error_Some. congruence. }
    specialize (IH xs w1 _ p t s Hinv1 Ht1 (in_or_app _ _ p (or_introl Hp)) Hs1).
    now destruct (run evs w1).
  - apply (IH xs _ ps); auto using build_inv_settle, times_in_past_settle.
    now apply (settled_stays_settle xs w ps).
Qed.

(** X18.  Once a promise returned by a call is settled, fulfilled or
    rejected, nothing that follows in the build changes its state:
    neither later calls nor later settlements by the host, including
    rejections of entries that were still pending. *)
Theorem settled_result_is_final xs w evs1 evs2 p t s :
  inputs w = IArray xs -> resolvedInputs w = None -> resolveId_log w = [] ->
  times_in_past w ->
  In p (returned (fst (run evs1 w))) ->
  status (snd (run evs1 w)) p = Settled t s ->
  status (snd (run (evs1 ++ evs2) w)) p = Settled t s.
Proof.
  intros Hin Hres Hlog Ht Hp Hs. rewrite run_app_snd.
  apply (settled_stays evs2 xs _ (returned (fst (run evs1 w)))); auto.
  - now apply build_inv_reached.
  - now apply times_in_past_run.
Qed.

Lemma settled_result_is_final_witness :
  status (snd (run ([ Call "define(function(){})" amd_output (Chunk.mk "a");
                      Settle 1 (Rejected (Error "Could not resolve b.js")) ]
                    ++ [ Settle 0 (Rejected (Error "Could not resolve a.js"));
                         Call "define(function(){})" amd_output (Chunk.mk "b") ])
                 (snd (options (IArray ["a.js"; "b.js"]) loader)))) 3
  = Settled 0 (Rejected (Error "Could not resolve b.js")).
Proof.
  apply (settled_result_is_final ["a.js"; "b.js"]
           (snd (options (IArray ["a.js"; "b.js"]) loader))
           [ Call "define(function(){})" amd_output (Chunk.mk "a");
             Settle 1 (Rejected (Error "Could not resolve b.js")) ]
           [ Settle 0 (Rejected (Error "Could not resolve a.js"));
             Call "define(function(){})" amd_output (Chunk.mk "b") ]
           3); try reflexivity.
  - intros x t s [].
  - left. reflexivity.
Defined.

Lemma banner_error_iff_witness :
  transformChunk "define(function(){})"
    {| format := Some "amd"; banner := BannerFunction 1 |}
    (Chunk.mk "main") after_options
  = (Throw (Error banner_message), after_options).
Proof.
  apply (proj2 (banner_error_iff "define(function(){})"
                  {| format := Some "amd"; banner := BannerFunction 1 |}
                  (Chunk.mk "main") after_options)).
  split; [reflexivity|]. right. exists 0. reflexivity.
Defined.
